(** * Placeholder anonymizer: allocator, forward pass and reverse pass

    A shallow embedding of [presidio_placeholder_anonymizer.py] and the
    properties of its placeholder mapping.

    - Python [str] values are lists of characters ([list ascii]); the
      theorems therefore speak about texts over the 256 one-byte
      characters.
    - A Python [dict] is an association list in insertion order: assigning
      to a key that is present overwrites the value in place, assigning to
      a new key appends it.  The order matters, because the reverse pass
      applies its replacements in the iteration order of a dict.
    - The entity mapping is one shared mutable object.  It is threaded
      through [operate] as explicit state; the [params] dict only records
      whether it carries a reference to that object.
    - A raised exception is the [Raised] outcome. *)

From Stdlib Require Import Ascii String.
From Stdlib Require Import List Arith Lia Bool Decimal DecimalNat.
From Stdlib Require Import Permutation Finite.
Import ListNotations.

Local Open Scope list_scope.
Local Open Scope char_scope.

(** ** Strings *)

Definition str := list ascii.

(** A string literal as a Python [str]. *)
Definition py (s : string) : str := list_ascii_of_string s.

Module Str.

Fixpoint eqb (a b : str) : bool :=
  match a, b with
  | [], [] => true
  | x :: a', y :: b' => Ascii.eqb x y && eqb a' b'
  | _, _ => false
  end.

(** [s.startswith(p)] *)
Fixpoint starts_with (p s : str) : bool :=
  match p, s with
  | [], _ => true
  | _ :: _, [] => false
  | x :: p', y :: s' => Ascii.eqb x y && starts_with p' s'
  end.

(** [p in s] *)
Fixpoint occurs (p s : str) : bool :=
  starts_with p s
  || match s with
     | [] => false
     | _ :: s' => occurs p s'
     end.

(** The scan of [s.replace(old, new)] for a non-empty [old]: the text is
    read left to right; where [old] starts, [new] is emitted and the
    characters of that occurrence are passed over ([skip] counts those
    still to pass), so occurrences are the leftmost non-overlapping
    ones. *)
Fixpoint replace_from (old new : str) (skip : nat) (s : str) : str :=
  match s with
  | [] => []
  | c :: s' =>
      match skip with
      | S k => replace_from old new k s'
      | O =>
          if starts_with old s
          then new ++ replace_from old new (length old - 1) s'
          else c :: replace_from old new 0 s'
      end
  end.

(** [s.replace(old, new)].  For the empty [old] Python inserts [new]
    before every character and at the end. *)
Definition replace (old new s : str) : str :=
  match old with
  | [] => new ++ flat_map (fun c => c :: new) s
  | _ :: _ => replace_from old new 0 s
  end.

(** [s[start:stop]] for offsets inside the text. *)
Definition slice (s : str) (start stop : nat) : str :=
  firstn (stop - start) (skipn start s).

(** [s.rstrip(c)] for a one-character [c]: the text without the run of
    [c] at its end. *)
Fixpoint rstrip (c : ascii) (s : str) : str :=
  match s with
  | [] => []
  | x :: s' =>
      match rstrip c s' with
      | [] => if Ascii.eqb x c then [] else [x]
      | r => x :: r
      end
  end.

(** [str(n)] for a non-negative integer (also what [format] prints). *)
Fixpoint uint_chars (d : Decimal.uint) : str :=
  match d with
  | Nil => []
  | D0 d' => "0" :: uint_chars d'
  | D1 d' => "1" :: uint_chars d'
  | D2 d' => "2" :: uint_chars d'
  | D3 d' => "3" :: uint_chars d'
  | D4 d' => "4" :: uint_chars d'
  | D5 d' => "5" :: uint_chars d'
  | D6 d' => "6" :: uint_chars d'
  | D7 d' => "7" :: uint_chars d'
  | D8 d' => "8" :: uint_chars d'
  | D9 d' => "9" :: uint_chars d'
  end.

Definition of_nat (n : nat) : str := uint_chars (Nat.to_uint n).

End Str.

(** ** Dicts with string keys *)

Module Dict.
Section Ops.
Context {V : Type}.

(** [d.get(k)]; [k in d] holds when the result is [Some _]. *)
Fixpoint get (d : list (str * V)) (k : str) : option V :=
  match d with
  | [] => None
  | (k', v) :: d' => if Str.eqb k' k then Some v else get d' k
  end.

(** [d[k] = v] *)
Fixpoint set (d : list (str * V)) (k : str) (v : V) : list (str * V) :=
  match d with
  | [] => [(k, v)]
  | (k', v') :: d' =>
      if Str.eqb k' k then (k', v) :: d' else (k', v') :: set d' k v
  end.

Definition keys (d : list (str * V)) : list str := map fst d.
Definition values (d : list (str * V)) : list V := map snd d.
End Ops.
End Dict.

(** ** The entity mapping and the operator *)

(** [{"PERSON": {"Peter": "<PERSON_0>", ...}, ...}] *)
Definition InnerMapping := list (str * str).
Definition EntityMapping := list (str * InnerMapping).

(** The exceptions of this file, and the one with which the anonymizer
    engine refuses an analyzer result. *)
Inductive exception : Type :=
| ValueError (msg : string)
| KeyError (key : string)
| InvalidParamError.

Inductive outcome (A : Type) : Type :=
| Returned (a : A)
| Raised (e : exception).
Arguments Returned {A} a.
Arguments Raised {A} e.

(** The [params] dict of a call, as far as the operator reads it: whether it
    has the key ["entity_mapping"] (whose value is the shared mapping), and
    the value of ["entity_type"] when that key is present. *)
Record Params : Type := mkParams {
  has_entity_mapping : bool;
  entity_type_param : option str
}.

(** [not params], for [params] that is [None] or a dict. *)
Definition falsy (params : option Params) : bool :=
  match params with
  | None => true
  | Some p =>
      negb (has_entity_mapping p)
      && match entity_type_param p with None => true | Some _ => false end
  end.

(** ["entity_mapping" not in params], read once [params] is a dict. *)
Definition lacks_entity_mapping (params : option Params) : bool :=
  match params with
  | None => true
  | Some p => negb (has_entity_mapping p)
  end.

Definition lacks_entity_type (params : option Params) : bool :=
  match params with
  | None => true
  | Some p => match entity_type_param p with None => true | Some _ => false end
  end.

(** The inner mapping of a type; an absent type reads as the empty dict. *)
Definition inner_of (entity_mapping : EntityMapping) (entity_type : str)
  : InnerMapping :=
  match Dict.get entity_mapping entity_type with
  | Some m => m
  | None => []
  end.

Module PlaceholderAnonymizer.

(** ["<{entity_type}_{index}>".format(...)] *)
Definition REPLACING_FORMAT (entity_type : str) (index : nat) : str :=
  "<" :: entity_type ++ "_" :: Str.of_nat index ++ [">"].

(** The tail of [operate]: build the placeholder and store it under
    [entity_mapping[entity_type][text]]. *)
Definition store_new (entity_mapping : EntityMapping)
           (entity_type text : str) (index : nat)
  : outcome str * EntityMapping :=
  let placeholder := REPLACING_FORMAT entity_type index in
  (Returned placeholder,
   Dict.set entity_mapping entity_type
     (Dict.set (inner_of entity_mapping entity_type) text placeholder)).

Definition operate (text : str) (params : option Params)
           (entity_mapping : EntityMapping)
  : outcome str * EntityMapping :=
  if falsy params || lacks_entity_mapping params then
    (Raised (ValueError "Expected 'entity_mapping' in params."),
     entity_mapping)
  else
    match params with
    | None | Some (mkParams _ None) =>
        (Raised (KeyError "entity_type"), entity_mapping)
    | Some (mkParams _ (Some entity_type)) =>
        match Dict.get entity_mapping entity_type with
        | None =>
            let entity_mapping := Dict.set entity_mapping entity_type [] in
            store_new entity_mapping entity_type text 0
        | Some original_map =>
            match Dict.get original_map text with
            | Some placeholder => (Returned placeholder, entity_mapping)
            | None =>
                store_new entity_mapping entity_type text
                          (length original_map)
            end
        end
    end.

Definition validate (params : option Params) : outcome unit :=
  if falsy params || lacks_entity_mapping params then
    Raised (ValueError "An input dict 'entity_mapping' is required.")
  else if lacks_entity_type params then
    Raised (ValueError "'entity_type' param is required.")
  else Returned tt.

Definition operator_name : str := py "placeholder_anonymizer".

End PlaceholderAnonymizer.
Import PlaceholderAnonymizer.

(** The allocator of the specification: [operate] called with both
    parameters present. *)
Definition allocate (store : EntityMapping) (entity_type original_value : str)
  : outcome str * EntityMapping :=
  operate original_value (Some (mkParams true (Some entity_type))) store.

(** ** The reverse pass *)

(** The loop building [reverse_map]: every [(original_value, placeholder)]
    of every type, in iteration order, assigned into one dict. *)
Definition reverse_map_of (entity_mapping : EntityMapping) : list (str * str) :=
  fold_left
    (fun reverse_map '(_, original_map) =>
       fold_left
         (fun reverse_map '(original_value, placeholder) =>
            Dict.set reverse_map placeholder original_value)
         original_map reverse_map)
    entity_mapping [].

(** The replacement loop over the items of a reverse map. *)
Definition replace_all (reverse_map : list (str * str)) (input_text : str) : str :=
  fold_left
    (fun deanonymized_text '(placeholder, original_value) =>
       Str.replace placeholder original_value deanonymized_text)
    reverse_map input_text.

(** [deanonymize_text], from the mapping read back from the file to the text
    it prints. *)
Definition deanonymize_text (input_text : str) (entity_mapping : EntityMapping)
  : str :=
  replace_all (reverse_map_of entity_mapping) input_text.

(** ** The forward pass *)

(** A detection as the analyzer reports it: an entity type and the span
    [start, stop) of the raw text it covers.  The detected text is the
    slice of the raw text at that span. *)
Record Detection : Type := mkDetection {
  det_type : str;
  det_start : nat;
  det_end : nat
}.

Definition det_text (input_text : str) (d : Detection) : str :=
  Str.slice input_text (det_start d) (det_end d).

(** Modelled from the spec: the anonymizer engine's loop over the
    detections is a library outside this file.  Per section 4.2 it calls
    the operator once per detection, in the order given, with the shared
    mapping and the detection's entity type in [params] and the detected
    text as [text]; a raised exception ends the run. *)
Fixpoint assign_placeholders (input_text : str) (results : list Detection)
         (entity_mapping : EntityMapping)
  : outcome (list (Detection * str)) * EntityMapping :=
  match results with
  | [] => (Returned [], entity_mapping)
  | d :: rest =>
      match operate (det_text input_text d)
                    (Some (mkParams true (Some (det_type d))))
                    entity_mapping with
      | (Raised e, entity_mapping) => (Raised e, entity_mapping)
      | (Returned placeholder, entity_mapping) =>
          match assign_placeholders input_text rest entity_mapping with
          | (Raised e, entity_mapping) => (Raised e, entity_mapping)
          | (Returned items, entity_mapping) =>
              (Returned ((d, placeholder) :: items), entity_mapping)
          end
      end
  end.

(** Modelled from the spec: what the engine, a library outside this file,
    takes as a detection.  Per section 3 a detection's text is the exact
    substring identified, so its span lies in the raw text: its end is not
    before its start and not beyond the end of the text. *)
Definition valid_span (input_text : str) (d : Detection) : bool :=
  Nat.leb (det_start d) (det_end d)
  && Nat.leb (det_end d) (length input_text).

(** Modelled from the spec: part of the engine's rendering step below.
    Whether the character at offset [i] lies inside one of the spans. *)
Definition covered (items : list (Detection * str)) (i : nat) : bool :=
  existsb
    (fun it => Nat.leb (det_start (fst it)) i && Nat.ltb i (det_end (fst it)))
    items.

(** Modelled from the spec: part of the engine's rendering step below.
    The placeholders of the spans that start at offset [i], in the order
    of the list. *)
Definition starting_at (items : list (Detection * str)) (i : nat) : str :=
  flat_map (fun it => if Nat.eqb (det_start (fst it)) i then snd it else [])
           items.

(** Modelled from the spec: the engine's rendering step, also outside this
    file.  Per section 4.2 each detected span of the raw text is replaced
    by its placeholder, by span boundaries: reading the text from offset
    [pos], the placeholder of every span that starts at the current offset
    is put out, the characters inside a span are left out, and every other
    character is copied.  (The spec leaves overlapping spans to the
    detector; here each of them still gets its placeholder.) *)
Fixpoint render_spans (items : list (Detection * str)) (pos : nat) (s : str)
  : str :=
  starting_at items pos
    ++ match s with
       | [] => []
       | c :: s' =>
           (if covered items pos then [] else [c])
             ++ render_spans items (S pos) s'
       end.

(** [anonymize_text], from the analyzer's results to the pair of the text it
    prints and the mapping it writes to the file.  The engine refuses an
    analyzer result that is not a span of the text with an exception, and
    then nothing is written or printed. *)
Definition anonymize_text (input_text : str) (analyzer_results : list Detection)
  : outcome (str * EntityMapping) :=
  let entity_mapping : EntityMapping := [] in
  if forallb (valid_span input_text) analyzer_results then
    match assign_placeholders input_text analyzer_results entity_mapping with
    | (Raised e, _) => Raised e
    | (Returned items, entity_mapping) =>
        Returned (render_spans items 0 input_text, entity_mapping)
    end
  else Raised InvalidParamError.

(** ** The command line *)

(** [args.mode], one of the two [choices] of the parser. *)
Inductive Mode : Type :=
| Anonymize
| Deanonymize.

(** The one-key JSON object a run prints. *)
Inductive Printed : Type :=
| AnonymizedText (anonymized_text : str)
| DeanonymizedText (deanonymized_text : str).

(** The line feed, ["\n"] in the source. *)
Definition newline : ascii := "010".

(** [main], after the parser has accepted the arguments.  The analyzer is a
    library outside this file and is a parameter.  [mapping_file] is what
    the mapping file holds under its key ["entity_mapping"], [None] when
    the file does not exist; the result is what is printed ([None] when
    the run ends in an exception) and what the file holds afterwards. *)
Definition main (analyze : str -> list Detection) (mode : Mode)
           (stdin : str) (mapping_file : option EntityMapping)
  : option Printed * option EntityMapping :=
  let input_text := Str.rstrip newline stdin in
  match mode with
  | Anonymize =>
      match anonymize_text input_text (analyze input_text) with
      | Returned (anonymized_text, entity_mapping) =>
          (Some (AnonymizedText anonymized_text), Some entity_mapping)
      | Raised _ => (None, mapping_file)
      end
  | Deanonymize =>
      match mapping_file with
      | Some entity_mapping =>
          (Some (DeanonymizedText (deanonymize_text input_text entity_mapping)),
           mapping_file)
      | None => (None, mapping_file)
      end
  end.

(** ** Vocabulary of the properties *)

(** The store after a sequence of allocator calls [(entity_type, value)]. *)
Definition store_after (calls : list (str * str)) : EntityMapping :=
  fold_left (fun store '(t, v) => snd (allocate store t v)) calls [].

(** The distinct original values of type [t] in a call sequence, in the
    order of their first appearance. *)
Definition first_seen (t : str) (calls : list (str * str)) : list str :=
  fold_left
    (fun seen '(t', v) =>
       if Str.eqb t' t && negb (existsb (Str.eqb v) seen)
       then seen ++ [v] else seen)
    calls [].

(** All [(original_value, placeholder)] entries of a store, and all its
    placeholders, in iteration order. *)
Definition entries (store : EntityMapping) : list (str * str) :=
  flat_map snd store.

Definition placeholders (store : EntityMapping) : list str :=
  map snd (entries store).

(** Characters of a text. *)
Definition no_lt (s : str) : bool :=
  forallb (fun c => negb (Ascii.eqb c "<")) s.

Definition no_angle (s : str) : bool :=
  forallb (fun c => negb (Ascii.eqb c "<") && negb (Ascii.eqb c ">")) s.

(** A token in placeholder syntax: an opening bracket, a body without
    angle brackets, a closing bracket. *)
Definition token (body : str) : str := "<" :: body ++ [">"].

(** A text in which every ["<"] opens a token. *)
Fixpoint bracketed_from (inside : bool) (s : str) : bool :=
  match s with
  | [] => negb inside
  | c :: s' =>
      if inside then
        if Ascii.eqb c "<" then false
        else if Ascii.eqb c ">" then bracketed_from false s'
        else bracketed_from true s'
      else
        if Ascii.eqb c "<" then bracketed_from true s'
        else bracketed_from false s'
  end.

Definition bracketed (s : str) : bool := bracketed_from false s.

(** ** Auxiliary notions of the proofs *)

(** The ten characters a decimal numeral is made of. *)
Definition is_digit (c : ascii) : bool :=
  existsb (Ascii.eqb c) (py "0123456789").

(** The inner mapping of type [t] holds distinct values, and its
    placeholders are [<t_0>], [<t_1>], ... in insertion order. *)
Definition canonical_inner (t : str) (m : InnerMapping) : Prop :=
  NoDup (Dict.keys m)
  /\ Dict.values m = map (REPLACING_FORMAT t) (seq 0 (length m)).

(** The shape of every store the allocator builds. *)
Definition canonical (store : EntityMapping) : Prop :=
  NoDup (Dict.keys store)
  /\ Forall (fun e => canonical_inner (fst e) (snd e)) store.

(** A text cut into runs of ordinary characters and tokens. *)
Inductive segment : Type :=
| Lit (l : str)
| Tok (body : str).

Definition seg_text (s : segment) : str :=
  match s with
  | Lit l => l
  | Tok b => token b
  end.

Definition seg_ok (s : segment) : bool :=
  match s with
  | Lit l => no_lt l
  | Tok b => no_angle b
  end.

Definition render_segments (segs : list segment) : str :=
  flat_map seg_text segs.

(** One replacement step, segment by segment. *)
Definition subst1 (placeholder original_value : str) (s : segment) : segment :=
  match s with
  | Lit l => Lit l
  | Tok b => if Str.eqb placeholder (token b) then Lit original_value else Tok b
  end.

(** All replacements at once: a token that is a key becomes its value. *)
Definition subst_all (reverse_map : list (str * str)) (s : segment) : segment :=
  match s with
  | Lit l => Lit l
  | Tok b =>
      match Dict.get reverse_map (token b) with
      | Some v => Lit v
      | None => Tok b
      end
  end.

(** A reverse-map item whose key is a token and whose value has no ["<"]. *)
Definition item_ok (e : str * str) : Prop :=
  (exists b, fst e = token b /\ no_angle b = true) /\ no_lt (snd e) = true.

(** A string that is a token. *)
Definition is_token (p : str) : Prop :=
  exists b, p = token b /\ no_angle b = true.

(** A sequence of allocator calls on any store; [store_after] starts from
    the empty one. *)
Definition alloc_all (calls : list (str * str)) (store : EntityMapping)
  : EntityMapping :=
  fold_left (fun store '(t, v) => snd (allocate store t v)) calls store.

(** The allocator calls the forward pass makes for a list of detections. *)
Definition calls_of (input_text : str) (dets : list Detection)
  : list (str * str) :=
  map (fun d => (det_type d, det_text input_text d)) dets.

(** Whether two spans lie apart: one ends where or before the other
    starts. *)
Definition apart (d d' : Detection) : bool :=
  Nat.leb (det_end d) (det_start d') || Nat.leb (det_end d') (det_start d).

(** No two detections of the list overlap. *)
Fixpoint pairwise_apart (dets : list Detection) : bool :=
  match dets with
  | [] => true
  | d :: rest => forallb (apart d) rest && pairwise_apart rest
  end.

(** A text with holes: characters of the raw text, and holes that hold
    either their placeholder or their original value. *)
Inductive piece : Type :=
| Plain (c : ascii)
| Hole (placeholder original_value : str).

(** The text of the pieces when the holes whose placeholder is in
    [restored] show their original value and the others their
    placeholder. *)
Definition piece_text (restored : list str) (p : piece) : str :=
  match p with
  | Plain c => [c]
  | Hole k v => if existsb (Str.eqb k) restored then v else k
  end.

Definition view (restored : list str) (ps : list piece) : str :=
  flat_map (piece_text restored) ps.

(** Every placeholder in the holes is a token. *)
Definition ps_tokens (ps : list piece) : Prop :=
  forall k v, In (Hole k v) ps -> is_token k.

(** The text of the pieces when every hole shows its original value. *)
Definition original (ps : list piece) : str :=
  flat_map (fun p => match p with Plain c => [c] | Hole _ v => v end) ps.

(** The holes of the spans that start at offset [i]. *)
Definition holes_at (input_text : str) (items : list (Detection * str))
           (i : nat) : list piece :=
  flat_map
    (fun it =>
       if Nat.eqb (det_start (fst it)) i
       then [Hole (snd it) (det_text input_text (fst it))] else [])
    items.

(** The pieces of the text [render_spans] produces. *)
Fixpoint span_pieces (input_text : str) (items : list (Detection * str))
         (pos : nat) (s : str) : list piece :=
  holes_at input_text items pos
    ++ match s with
       | [] => []
       | c :: s' =>
           (if covered items pos then [] else [Plain c])
             ++ span_pieces input_text items (S pos) s'
       end.

(** The furthest end of the spans that start at offset [i]; [i] itself
    when there is none. *)
Definition reach (dets : list Detection) (i : nat) : nat :=
  fold_right
    (fun d r => if Nat.eqb (det_start d) i then Nat.max (det_end d) r else r)
    i dets.

(** Whether a call raised. *)
Definition raised {A : Type} (o : outcome A) : bool :=
  match o with
  | Raised _ => true
  | Returned _ => false
  end.

(** [params.get("entity_type")] *)
Definition type_of (params : option Params) : option str :=
  match params with
  | Some p => entity_type_param p
  | None => None
  end.

(** The original value of the last entry, in iteration order, that holds
    the placeholder [p]. *)
Definition last_original (store : EntityMapping) (p : str) : option str :=
  match find (fun e => Str.eqb (snd e) p) (List.rev (entries store)) with
  | Some e => Some (fst e)
  | None => None
  end.

(** * Lemmas *)

#[local] Arguments Ascii.eqb : simpl never.

(** ** Strings *)

Lemma str_eqb_eq (a b : str) : Str.eqb a b = true <-> a = b.
Proof.
  revert b; induction a as [|x a IH]; intros [|y b]; simpl; split;
    try congruence; try reflexivity.
  - intros H. apply andb_true_iff in H as [Hx Hab].
    apply Ascii.eqb_eq in Hx. apply IH in Hab. congruence.
  - intros H. inversion H; subst. rewrite Ascii.eqb_refl. simpl.
    now apply IH.
Qed.

Lemma str_eqb_refl (a : str) : Str.eqb a a = true.
Proof. now apply str_eqb_eq. Qed.

Lemma str_eqb_neq (a b : str) : Str.eqb a b = false <-> a <> b.
Proof.
  split.
  - intros H E. apply str_eqb_eq in E. congruence.
  - intros H. destruct (Str.eqb a b) eqn:E; [|reflexivity].
    apply str_eqb_eq in E. contradiction.
Qed.

Lemma str_eqb_sym (a b : str) : Str.eqb a b = Str.eqb b a.
Proof.
  destruct (Str.eqb a b) eqn:E.
  - apply str_eqb_eq in E. subst. now rewrite str_eqb_refl.
  - symmetry. apply str_eqb_neq. apply str_eqb_neq in E. congruence.
Qed.

Lemma starts_with_iff (p s : str) :
  Str.starts_with p s = true <-> exists r, s = p ++ r.
Proof.
  revert s; induction p as [|x p IH]; intros s; simpl.
  - split; [intros _; now exists s | reflexivity].
  - destruct s as [|y s].
    + split; [discriminate | intros [r Hr]; discriminate].
    + split.
      * intros H. apply andb_true_iff in H as [Hx Hp].
        apply Ascii.eqb_eq in Hx. apply IH in Hp as [r ->].
        exists r. now subst.
      * intros [r Hr]. inversion Hr; subst.
        rewrite Ascii.eqb_refl. simpl. apply IH. now exists r.
Qed.

Lemma starts_with_app (p r : str) : Str.starts_with p (p ++ r) = true.
Proof. apply starts_with_iff. now exists r. Qed.

Lemma starts_with_head (x y : ascii) (p s : str) :
  x <> y -> Str.starts_with (x :: p) (y :: s) = false.
Proof.
  intros H. simpl. destruct (Ascii.eqb x y) eqn:E; [|reflexivity].
  apply Ascii.eqb_eq in E. contradiction.
Qed.

(** Passing over the rest of a matched occurrence. *)
Lemma replace_from_skip (old new m r : str) :
  Str.replace_from old new (length m) (m ++ r) = Str.replace_from old new 0 r.
Proof.
  induction m as [|c m IH]; simpl; [reflexivity | exact IH].
Qed.

(** The three equations of [replace] for a non-empty pattern. *)
Lemma replace_nil (old new : str) : old <> [] -> Str.replace old new [] = [].
Proof. destruct old; [congruence | reflexivity]. Qed.

Lemma replace_match (old new r : str) :
  old <> [] ->
  Str.replace old new (old ++ r) = new ++ Str.replace old new r.
Proof.
  destruct old as [|c old]; [congruence | intros _].
  pose proof (starts_with_app (c :: old) r) as Hp.
  unfold Str.replace. rewrite <- app_comm_cons in *.
  cbn [Str.replace_from]. rewrite Hp. f_equal. cbn [Datatypes.length].
  replace (S (Datatypes.length old) - 1) with (Datatypes.length old) by lia.
  apply replace_from_skip.
Qed.

Lemma replace_step (old new : str) (c : ascii) (s : str) :
  Str.starts_with old (c :: s) = false ->
  Str.replace old new (c :: s) = c :: Str.replace old new s.
Proof.
  destruct old as [|x old]; [discriminate | intros H].
  unfold Str.replace. cbn [Str.replace_from]. now rewrite H.
Qed.

Lemma occurs_cons (p : str) (c : ascii) (s : str) :
  Str.occurs p (c :: s) = false ->
  Str.starts_with p (c :: s) = false /\ Str.occurs p s = false.
Proof. simpl. intros H. now apply orb_false_iff in H. Qed.

Lemma occurs_nonempty (p s : str) : Str.occurs p s = false -> p <> [].
Proof. intros H ->. destruct s; discriminate. Qed.

(** A pattern that does not occur leaves the text as it is. *)
Lemma replace_absent (old new s : str) :
  Str.occurs old s = false -> Str.replace old new s = s.
Proof.
  intros H. pose proof (occurs_nonempty _ _ H) as Hne.
  induction s as [|c s IH].
  - now apply replace_nil.
  - apply occurs_cons in H as [H1 H2].
    rewrite replace_step by exact H1. f_equal. now apply IH.
Qed.

(** Text without ["<"] is copied by the scan for a pattern opening with
    ["<"]. *)
Lemma replace_no_lt (key_body new l r : str) :
  no_lt l = true ->
  Str.replace ("<" :: key_body) new (l ++ r)
  = l ++ Str.replace ("<" :: key_body) new r.
Proof.
  induction l as [|c l IH]; intros H; [reflexivity|].
  simpl in H. apply andb_true_iff in H as [Hc Hl].
  rewrite <- !app_comm_cons. rewrite replace_step.
  - f_equal. now apply IH.
  - apply starts_with_head. intros E. subst c.
    now rewrite Ascii.eqb_refl in Hc.
Qed.

Lemma no_lt_app (a b : str) : no_lt (a ++ b) = no_lt a && no_lt b.
Proof. apply forallb_app. Qed.

Lemma no_angle_app (a b : str) : no_angle (a ++ b) = no_angle a && no_angle b.
Proof. apply forallb_app. Qed.

Lemma no_angle_no_lt (s : str) : no_angle s = true -> no_lt s = true.
Proof.
  unfold no_angle, no_lt. rewrite !forallb_forall. intros H c Hc.
  specialize (H c Hc). now apply andb_true_iff in H as [H _].
Qed.

(** Two tokens, one a prefix of a text starting with the other, are the
    same token. *)
Lemma token_prefix (b c r : str) :
  no_angle b = true -> no_angle c = true ->
  Str.starts_with (token b) (token c ++ r) = true -> b = c.
Proof.
  unfold token. rewrite <- !app_comm_cons. cbn [Str.starts_with].
  rewrite Ascii.eqb_refl. cbn [andb].
  revert c. induction b as [|x b IH]; intros c Hb Hc H.
  - destruct c as [|y c]; [reflexivity|].
    simpl in H, Hc. apply andb_true_iff in H as [H _].
    apply Ascii.eqb_eq in H. subst y. simpl in Hc. discriminate.
  - destruct c as [|y c].
    + simpl in H, Hb. apply andb_true_iff in H as [H _].
      apply Ascii.eqb_eq in H. subst x.
      rewrite andb_false_r in Hb. discriminate.
    + simpl in H, Hb, Hc. apply andb_true_iff in H as [H1 H2].
      apply andb_true_iff in Hb as [_ Hb]. apply andb_true_iff in Hc as [_ Hc].
      apply Ascii.eqb_eq in H1. subst y. f_equal. now apply IH.
Qed.

(** ** Decimal numerals and the placeholder format *)

Lemma uint_chars_inj (d d' : Decimal.uint) :
  Str.uint_chars d = Str.uint_chars d' -> d = d'.
Proof.
  revert d'; induction d; intros d'; destruct d'; simpl; intros H;
    try reflexivity; try discriminate; inversion H; f_equal; auto.
Qed.

Lemma of_nat_inj (n m : nat) : Str.of_nat n = Str.of_nat m -> n = m.
Proof.
  unfold Str.of_nat. intros H. apply uint_chars_inj in H.
  now apply Unsigned.to_uint_inj.
Qed.

Lemma uint_chars_digits (d : Decimal.uint) :
  forallb is_digit (Str.uint_chars d) = true.
Proof. induction d; cbn [Str.uint_chars forallb]; try rewrite IHd; reflexivity. Qed.

Lemma digit_facts (c : ascii) :
  is_digit c = true -> c <> "_" /\ c <> "<" /\ c <> ">".
Proof.
  unfold is_digit. intros H. apply existsb_exists in H as [x [Hx E]].
  apply Ascii.eqb_eq in E. subst x.
  repeat (destruct Hx as [<-|Hx]; [repeat split; discriminate|]).
  destruct Hx.
Qed.

Lemma of_nat_no_underscore (n : nat) : ~ In "_" (Str.of_nat n).
Proof.
  intros H. pose proof (uint_chars_digits (Nat.to_uint n)) as D.
  rewrite forallb_forall in D. apply D in H.
  apply digit_facts in H as [H _]. congruence.
Qed.

Lemma of_nat_no_angle (n : nat) : no_angle (Str.of_nat n) = true.
Proof.
  pose proof (uint_chars_digits (Nat.to_uint n)) as D.
  rewrite forallb_forall in D. apply forallb_forall. intros c Hc.
  apply D in Hc. apply digit_facts in Hc as (_ & H1 & H2).
  apply andb_true_iff. split; apply negb_true_iff; now apply Ascii.eqb_neq.
Qed.

Lemma split_at_first (sep : ascii) (x x' y y' : str) :
  ~ In sep x -> ~ In sep x' ->
  x ++ sep :: y = x' ++ sep :: y' -> x = x' /\ y = y'.
Proof.
  revert x'. induction x as [|a x IH]; intros [|a' x'] Hx Hx' E; simpl in *.
  - now inversion E.
  - inversion E; subst. exfalso. apply Hx'. now left.
  - inversion E; subst. exfalso. apply Hx. now left.
  - inversion E; subst.
    destruct (IH x') as [-> ->]; auto.
Qed.

Lemma split_at_last (sep : ascii) (a a' b b' : str) :
  ~ In sep b -> ~ In sep b' ->
  a ++ sep :: b = a' ++ sep :: b' -> a = a' /\ b = b'.
Proof.
  intros Hb Hb' E. apply (f_equal (@List.rev ascii)) in E.
  rewrite !rev_app_distr in E. simpl in E. rewrite <- !app_assoc in E.
  simpl in E. apply split_at_first in E.
  - destruct E as [E1 E2]. split.
    + rewrite <- (rev_involutive a), <- (rev_involutive a'). now f_equal.
    + rewrite <- (rev_involutive b), <- (rev_involutive b'). now f_equal.
  - now rewrite <- in_rev.
  - now rewrite <- in_rev.
Qed.

(** The format is injective: the index holds no underscore, so the last
    underscore of a placeholder separates type and index. *)
Lemma format_inj (t t' : str) (i j : nat) :
  REPLACING_FORMAT t i = REPLACING_FORMAT t' j -> t = t' /\ i = j.
Proof.
  unfold REPLACING_FORMAT. intros E. inversion E as [E'].
  apply split_at_last in E'.
  - destruct E' as [-> E2]. split; [reflexivity|].
    apply app_inv_tail in E2. now apply of_nat_inj.
  - rewrite in_app_iff. intros [H|[H|[]]]; [|discriminate].
    now apply of_nat_no_underscore in H.
  - rewrite in_app_iff. intros [H|[H|[]]]; [|discriminate].
    now apply of_nat_no_underscore in H.
Qed.

Lemma format_token (t : str) (i : nat) :
  REPLACING_FORMAT t i = token (t ++ "_" :: Str.of_nat i).
Proof.
  unfold REPLACING_FORMAT, token. now rewrite <- app_assoc.
Qed.

Lemma format_body_no_angle (t : str) (i : nat) :
  no_angle t = true -> no_angle (t ++ "_" :: Str.of_nat i) = true.
Proof.
  intros H. rewrite no_angle_app, H. simpl.
  change (no_angle (Str.of_nat i) = true). apply of_nat_no_angle.
Qed.

(** ** Dicts *)

Section DictFacts.
Context {V : Type}.
Implicit Types (d : list (str * V)) (k : str) (v : V).

Lemma get_set_same d k v : Dict.get (Dict.set d k v) k = Some v.
Proof.
  induction d as [|[k' v'] d IH]; simpl.
  - now rewrite str_eqb_refl.
  - destruct (Str.eqb k' k) eqn:E; simpl; rewrite E; auto.
Qed.

Lemma get_set_other d k k' v :
  k <> k' -> Dict.get (Dict.set d k v) k' = Dict.get d k'.
Proof.
  intros N. induction d as [|[k0 v0] d IH]; simpl.
  - apply str_eqb_neq in N. now rewrite N.
  - destruct (Str.eqb k0 k) eqn:E; simpl.
    + apply str_eqb_eq in E. subst k0. apply str_eqb_neq in N. now rewrite N.
    + now rewrite IH.
Qed.

Lemma get_none_iff d k : Dict.get d k = None <-> ~ In k (Dict.keys d).
Proof.
  induction d as [|[k' v'] d IH]; simpl.
  - tauto.
  - destruct (Str.eqb k' k) eqn:E.
    + apply str_eqb_eq in E. split; [discriminate | tauto].
    + apply str_eqb_neq in E. tauto.
Qed.

Lemma get_some_in d k v : Dict.get d k = Some v -> In (k, v) d.
Proof.
  induction d as [|[k' v'] d IH]; simpl; [discriminate|].
  destruct (Str.eqb k' k) eqn:E.
  - apply str_eqb_eq in E. intros H. inversion H; subst. now left.
  - auto.
Qed.

Lemma in_get_some d k v :
  NoDup (Dict.keys d) -> In (k, v) d -> Dict.get d k = Some v.
Proof.
  induction d as [|[k' v'] d IH]; simpl; [tauto|].
  intros ND [H|H].
  - inversion H; subst. now rewrite str_eqb_refl.
  - inversion ND; subst. destruct (Str.eqb k' k) eqn:E.
    + apply str_eqb_eq in E. subst. exfalso. apply H2.
      apply (in_map fst) in H. exact H.
    + auto.
Qed.

Lemma set_absent d k v : Dict.get d k = None -> Dict.set d k v = d ++ [(k, v)].
Proof.
  induction d as [|[k' v'] d IH]; simpl; [reflexivity|].
  destruct (Str.eqb k' k); [discriminate|]. intros H. now rewrite IH.
Qed.

Lemma set_present d k v0 v :
  Dict.get d k = Some v0 ->
  exists d1 d2, d = d1 ++ (k, v0) :: d2 /\ Dict.get d1 k = None
                /\ Dict.set d k v = d1 ++ (k, v) :: d2.
Proof.
  induction d as [|[k' v'] d IH]; simpl; [discriminate|].
  destruct (Str.eqb k' k) eqn:E.
  - apply str_eqb_eq in E. subst. intros H. inversion H; subst.
    now exists [], d.
  - intros H. destruct (IH H) as (d1 & d2 & -> & G & S).
    exists ((k', v') :: d1), d2. simpl. rewrite E, S. auto.
Qed.

Lemma get_app d d' k :
  Dict.get (d ++ d') k
  = match Dict.get d k with Some v => Some v | None => Dict.get d' k end.
Proof.
  induction d as [|[k' v'] d IH]; simpl; [reflexivity|].
  now destruct (Str.eqb k' k).
Qed.

Lemma keys_app d d' : Dict.keys (d ++ d') = Dict.keys d ++ Dict.keys d'.
Proof. apply map_app. Qed.

Lemma set_last d k v v' :
  Dict.get d k = None -> Dict.set (d ++ [(k, v)]) k v' = d ++ [(k, v')].
Proof.
  induction d as [|[k0 v0] d IH]; simpl.
  - now rewrite str_eqb_refl.
  - destruct (Str.eqb k0 k); [discriminate|]. intros H. now rewrite IH.
Qed.
End DictFacts.

(** ** The allocator, case by case *)

Lemma allocate_new_type (store : EntityMapping) (t v : str) :
  Dict.get store t = None ->
  allocate store t v
  = (Returned (REPLACING_FORMAT t 0),
     store ++ [(t, [(v, REPLACING_FORMAT t 0)])]).
Proof.
  intros G. unfold allocate, operate. cbn [falsy lacks_entity_mapping
    has_entity_mapping entity_type_param negb andb orb].
  rewrite G. unfold store_new, inner_of.
  rewrite get_set_same. cbn [Dict.set]. f_equal.
  rewrite (set_absent store t []) by exact G.
  now apply set_last.
Qed.

Lemma allocate_known (store : EntityMapping) (t v : str)
      (m : InnerMapping) (p : str) :
  Dict.get store t = Some m -> Dict.get m v = Some p ->
  allocate store t v = (Returned p, store).
Proof.
  intros G1 G2. unfold allocate, operate. cbn [falsy lacks_entity_mapping
    has_entity_mapping entity_type_param negb andb orb].
  now rewrite G1, G2.
Qed.

Lemma allocate_new_value (store : EntityMapping) (t v : str)
      (m : InnerMapping) :
  Dict.get store t = Some m -> Dict.get m v = None ->
  allocate store t v
  = (Returned (REPLACING_FORMAT t (length m)),
     Dict.set store t (m ++ [(v, REPLACING_FORMAT t (length m))])).
Proof.
  intros G1 G2. unfold allocate, operate. cbn [falsy lacks_entity_mapping
    has_entity_mapping entity_type_param negb andb orb].
  rewrite G1, G2. unfold store_new, inner_of. rewrite G1.
  now rewrite (set_absent m v) by exact G2.
Qed.

(** What one call does to the store, read through [inner_of]. *)
Lemma allocate_effect (store : EntityMapping) (t v : str) :
  (forall t', t' <> t ->
     Dict.get (snd (allocate store t v)) t' = Dict.get store t')
  /\ match Dict.get (inner_of store t) v with
     | Some p => allocate store t v = (Returned p, store)
     | None =>
         let p := REPLACING_FORMAT t (length (inner_of store t)) in
         fst (allocate store t v) = Returned p
         /\ inner_of (snd (allocate store t v)) t
            = inner_of store t ++ [(v, p)]
     end.
Proof.
  unfold inner_of. destruct (Dict.get store t) as [m|] eqn:G.
  - destruct (Dict.get m v) as [p|] eqn:Gv.
    + rewrite (allocate_known _ _ _ _ _ G Gv). auto.
    + rewrite (allocate_new_value _ _ _ _ G Gv). cbn [fst snd].
      split; [|split].
      * intros t' N. apply get_set_other. congruence.
      * reflexivity.
      * now rewrite get_set_same.
  - rewrite (allocate_new_type _ _ _ G). cbn [fst snd Dict.get].
    split; [|split].
    + intros t' N. rewrite get_app. destruct (Dict.get store t'); [reflexivity|].
      simpl. assert (Str.eqb t t' = false) as -> by (apply str_eqb_neq; congruence).
      reflexivity.
    + reflexivity.
    + rewrite get_app, G. simpl. now rewrite str_eqb_refl.
Qed.

Lemma allocate_returns (store : EntityMapping) (t v : str) :
  exists p, fst (allocate store t v) = Returned p
            /\ Dict.get (inner_of (snd (allocate store t v)) t) v = Some p.
Proof.
  destruct (allocate_effect store t v) as [_ H].
  destruct (Dict.get (inner_of store t) v) as [p|] eqn:G.
  - exists p. rewrite H. cbn [fst snd]. auto.
  - cbv zeta in H. destruct H as [H1 H2]. eexists. split; [exact H1|].
    rewrite H2, get_app, G. simpl. now rewrite str_eqb_refl.
Qed.

(** ** Stores built by the allocator *)

Lemma canonical_inner_snoc (t v : str) (m : InnerMapping) :
  canonical_inner t m -> Dict.get m v = None ->
  canonical_inner t (m ++ [(v, REPLACING_FORMAT t (length m))]).
Proof.
  intros [ND Hv] G. split.
  - rewrite keys_app. simpl. apply NoDup_app; auto.
    + repeat constructor. now intros [].
    + intros x Hx [<-|[]]. now apply get_none_iff in G.
  - unfold Dict.values in *. rewrite map_app, Hv, length_app. simpl.
    rewrite Nat.add_1_r, seq_S, map_app. reflexivity.
Qed.

Lemma canonical_allocate (store : EntityMapping) (t v : str) :
  canonical store -> canonical (snd (allocate store t v)).
Proof.
  intros [ND F]. destruct (Dict.get store t) as [m|] eqn:G.
  - destruct (Dict.get m v) as [p|] eqn:Gv.
    + rewrite (allocate_known _ _ _ _ _ G Gv). now split.
    + rewrite (allocate_new_value _ _ _ _ G Gv). cbn [snd].
      destruct (set_present store t m
                  (m ++ [(v, REPLACING_FORMAT t (length m))]) G)
        as (d1 & d2 & E & _ & ->).
      subst store. split.
      * unfold Dict.keys in *. rewrite map_app in *. exact ND.
      * apply Forall_app in F as [F1 F2]. inversion F2; subst.
        apply Forall_app. split; [exact F1|]. constructor; [|assumption].
        cbn [fst snd] in *. now apply canonical_inner_snoc.
  - rewrite (allocate_new_type _ _ _ G). cbn [snd]. split.
    + rewrite keys_app. simpl. apply NoDup_app; auto.
      * repeat constructor. now intros [].
      * intros x Hx [<-|[]]. now apply get_none_iff in G.
    + apply Forall_app. split; [exact F|]. repeat constructor.
      now intros [].
Qed.

Lemma store_after_snoc (calls : list (str * str)) (t v : str) :
  store_after (calls ++ [(t, v)]) = snd (allocate (store_after calls) t v).
Proof. unfold store_after. now rewrite fold_left_app. Qed.

Lemma canonical_store_after (calls : list (str * str)) :
  canonical (store_after calls).
Proof.
  induction calls as [|[t v] calls IH] using rev_ind.
  - split; constructor.
  - rewrite store_after_snoc. now apply canonical_allocate.
Qed.

Lemma canonical_inner_of (store : EntityMapping) (t : str) :
  canonical store -> canonical_inner t (inner_of store t).
Proof.
  intros [_ F]. unfold inner_of. destruct (Dict.get store t) as [m|] eqn:G.
  - apply get_some_in in G. rewrite Forall_forall in F. exact (F _ G).
  - split; constructor.
Qed.

Lemma existsb_keys (m : InnerMapping) (v : str) :
  existsb (Str.eqb v) (Dict.keys m)
  = match Dict.get m v with Some _ => true | None => false end.
Proof.
  induction m as [|[k p] m IH]; simpl; [reflexivity|].
  rewrite (str_eqb_sym v k). destruct (Str.eqb k v); simpl; auto.
Qed.

Lemma first_seen_snoc (t t' v : str) (calls : list (str * str)) :
  first_seen t (calls ++ [(t', v)])
  = if Str.eqb t' t && negb (existsb (Str.eqb v) (first_seen t calls))
    then first_seen t calls ++ [v] else first_seen t calls.
Proof. unfold first_seen. now rewrite fold_left_app. Qed.

(** The values of a type are stored in the order of their first
    appearance, whatever other types come in between. *)
Lemma keys_first_seen (calls : list (str * str)) (t : str) :
  Dict.keys (inner_of (store_after calls) t) = first_seen t calls.
Proof.
  induction calls as [|[t' v] calls IH] using rev_ind; [reflexivity|].
  rewrite store_after_snoc, first_seen_snoc, <- IH.
  destruct (allocate_effect (store_after calls) t' v) as [Hframe Heff].
  destruct (Str.eqb t' t) eqn:E.
  - apply str_eqb_eq in E. subst t'. rewrite existsb_keys. cbn [andb].
    destruct (Dict.get (inner_of (store_after calls) t) v) as [p|].
    + now rewrite Heff.
    + cbv zeta in Heff. destruct Heff as [_ ->]. now rewrite keys_app.
  - apply str_eqb_neq in E. cbn [andb]. unfold inner_of.
    rewrite Hframe by congruence. reflexivity.
Qed.

Lemma canonical_inner_nth (t v : str) (m : InnerMapping) (n : nat) :
  canonical_inner t m -> nth_error (Dict.keys m) n = Some v ->
  Dict.get m v = Some (REPLACING_FORMAT t n).
Proof.
  intros [ND Hv] Hn. apply in_get_some; [exact ND|].
  unfold Dict.keys in Hn. rewrite nth_error_map in Hn.
  destruct (nth_error m n) as [[v' p]|] eqn:E; [|discriminate].
  simpl in Hn. inversion Hn; subst v'.
  assert (Hp : nth_error (Dict.values m) n = Some p).
  { unfold Dict.values. rewrite nth_error_map, E. reflexivity. }
  rewrite Hv, nth_error_map, nth_error_seq in Hp.
  destruct (Nat.ltb n (length m)); [|discriminate].
  simpl in Hp. inversion Hp; subst p. eapply nth_error_In; eauto.
Qed.

Lemma canonical_inner_entry (t v p : str) (m : InnerMapping) :
  canonical_inner t m -> In (v, p) m ->
  exists n, n < length m /\ p = REPLACING_FORMAT t n.
Proof.
  intros [_ Hv] Hin. apply (in_map snd) in Hin. cbn [snd] in Hin.
  change (In p (Dict.values m)) in Hin. rewrite Hv in Hin.
  apply in_map_iff in Hin as (n & <- & Hn). apply in_seq in Hn.
  exists n. split; [lia | reflexivity].
Qed.

(** ** Placeholders of a canonical store are pairwise distinct *)

Lemma canonical_inner_values_nodup (t : str) (m : InnerMapping) :
  canonical_inner t m -> NoDup (Dict.values m).
Proof.
  intros [_ ->]. apply Finite.Injective_map_NoDup; [|apply seq_NoDup].
  intros i j E. now apply format_inj in E.
Qed.

Lemma placeholders_cons (t : str) (m : InnerMapping) (store : EntityMapping) :
  placeholders ((t, m) :: store) = Dict.values m ++ placeholders store.
Proof. unfold placeholders, entries. simpl. now rewrite map_app. Qed.

Lemma placeholders_type (store : EntityMapping) (p : str) :
  Forall (fun e => canonical_inner (fst e) (snd e)) store ->
  In p (placeholders store) ->
  exists t n, In t (Dict.keys store) /\ p = REPLACING_FORMAT t n.
Proof.
  induction store as [|[t m] store IH]; intros F Hin; [destruct Hin|].
  rewrite placeholders_cons in Hin. inversion F; subst.
  apply in_app_iff in Hin as [Hin|Hin].
  - destruct H1 as [_ Hv]. cbn [fst snd] in Hv. rewrite Hv in Hin.
    apply in_map_iff in Hin as (n & <- & _). exists t, n. simpl. auto.
  - destruct (IH H2 Hin) as (t' & n & Ht & ->). exists t', n. simpl. auto.
Qed.

Lemma canonical_placeholders_nodup (store : EntityMapping) :
  canonical store -> NoDup (placeholders store).
Proof.
  intros [ND F]. induction store as [|[t m] store IH]; [constructor|].
  rewrite placeholders_cons. inversion F; subst. inversion ND; subst.
  apply NoDup_app.
  - now apply (canonical_inner_values_nodup t).
  - now apply IH.
  - intros p Hp Hq. destruct H1 as [_ Hv]. cbn [fst snd] in Hv.
    rewrite Hv in Hp. apply in_map_iff in Hp as (n & <- & _).
    destruct (placeholders_type store _ H2 Hq) as (t' & n' & Ht' & E).
    apply format_inj in E as [-> _]. contradiction.
Qed.

(** ** The reverse map *)

Lemma fold_set_fresh (l acc : list (str * str)) :
  NoDup (Dict.keys acc ++ map snd l) ->
  fold_left (fun rm '(v, p) => Dict.set rm p v) l acc
  = acc ++ map (fun e => (snd e, fst e)) l.
Proof.
  revert acc. induction l as [|[v p] l IH]; intros acc ND; simpl.
  - now rewrite app_nil_r.
  - rewrite set_absent.
    + rewrite IH.
      * now rewrite <- app_assoc.
      * rewrite keys_app. simpl. rewrite <- app_assoc. exact ND.
    + apply get_none_iff. intros H.
      apply NoDup_remove_2 in ND. apply ND. apply in_app_iff. now left.
Qed.

Lemma reverse_map_fold (store : EntityMapping) (acc : list (str * str)) :
  NoDup (Dict.keys acc ++ placeholders store) ->
  fold_left
    (fun reverse_map '(_, original_map) =>
       fold_left
         (fun reverse_map '(original_value, placeholder) =>
            Dict.set reverse_map placeholder original_value)
         original_map reverse_map)
    store acc
  = acc ++ map (fun e => (snd e, fst e)) (entries store).
Proof.
  revert acc. induction store as [|[t m] store IH]; intros acc ND.
  - simpl. now rewrite app_nil_r.
  - rewrite placeholders_cons in ND. cbn [fold_left].
    rewrite fold_set_fresh.
    + rewrite IH.
      * unfold entries. simpl. now rewrite map_app, <- app_assoc.
      * rewrite keys_app. unfold Dict.keys at 2. rewrite map_map. simpl.
        rewrite <- app_assoc. exact ND.
    + rewrite app_assoc in ND. now apply NoDup_app_remove_r in ND.
Qed.

(** With pairwise distinct placeholders no assignment into the reverse
    map meets a key that is already there. *)
Lemma reverse_map_flat (store : EntityMapping) :
  NoDup (placeholders store) ->
  reverse_map_of store = map (fun e => (snd e, fst e)) (entries store).
Proof.
  intros ND. unfold reverse_map_of. now rewrite reverse_map_fold.
Qed.

(** ** Texts as sequences of literal runs and tokens *)

Lemma token_app (b r : str) : token b ++ r = "<" :: (b ++ [">"]) ++ r.
Proof. reflexivity. Qed.

Lemma replace_token_no_lt (kb new l r : str) :
  no_lt l = true ->
  Str.replace (token kb) new (l ++ r) = l ++ Str.replace (token kb) new r.
Proof. apply (replace_no_lt (kb ++ [">"])). Qed.

Lemma replace_segments (kb v : str) (segs : list segment) :
  no_angle kb = true -> forallb seg_ok segs = true ->
  Str.replace (token kb) v (render_segments segs)
  = render_segments (map (subst1 (token kb) v) segs).
Proof.
  intros Hk. induction segs as [|s segs IH]; intros Hs.
  - reflexivity.
  - cbn [forallb] in Hs. apply andb_true_iff in Hs as [Hs Hrest].
    specialize (IH Hrest). unfold render_segments in *.
    cbn [flat_map map]. destruct s as [l|b]; cbn [seg_text subst1 seg_ok] in *.
    + rewrite replace_token_no_lt by exact Hs. now rewrite IH.
    + destruct (Str.eqb (token kb) (token b)) eqn:E.
      * apply str_eqb_eq in E. rewrite <- E.
        rewrite replace_match by discriminate. cbn [seg_text]. now rewrite IH.
      * rewrite token_app.
        rewrite replace_step.
        -- rewrite replace_token_no_lt.
           ++ rewrite IH. reflexivity.
           ++ rewrite no_lt_app, (no_angle_no_lt _ Hs). reflexivity.
        -- rewrite <- token_app.
           destruct (Str.starts_with (token kb)
                       (token b ++ flat_map seg_text segs)) eqn:P;
             [|reflexivity].
           apply token_prefix in P; [|assumption|assumption].
           subst. now rewrite str_eqb_refl in E.
Qed.

Lemma subst1_ok (k v : str) (s : segment) :
  no_lt v = true -> seg_ok s = true -> seg_ok (subst1 k v s) = true.
Proof.
  intros Hv Hs. destruct s as [l|b]; simpl; [exact Hs|].
  now destruct (Str.eqb k (token b)).
Qed.

Lemma subst_all_cons (k v : str) (m : list (str * str)) (s : segment) :
  subst_all m (subst1 k v s) = subst_all ((k, v) :: m) s.
Proof.
  destruct s as [l|b]; simpl; [reflexivity|].
  now destruct (Str.eqb k (token b)).
Qed.

(** The replacement loop on a text of segments: when every key is a token
    and no value holds ["<"], each key token turns into its value and
    everything else stays. *)
Lemma replace_all_segments (m : list (str * str)) (segs : list segment) :
  Forall item_ok m -> forallb seg_ok segs = true ->
  replace_all m (render_segments segs)
  = render_segments (map (subst_all m) segs).
Proof.
  revert segs. induction m as [|[k v] m IH]; intros segs Hm Hs.
  - unfold replace_all. simpl. f_equal. symmetry.
    rewrite <- (map_id segs) at 2. apply map_ext. now intros [l|b].
  - inversion Hm as [|? ? [[kb [Hk Hkb]] Hv] Hm']; subst.
    cbn [fst snd] in *. subst k.
    unfold replace_all. cbn [fold_left].
    rewrite replace_segments by assumption.
    fold (replace_all m (render_segments (map (subst1 (token kb) v) segs))).
    rewrite IH.
    + rewrite map_map. f_equal. apply map_ext. intros s.
      apply subst_all_cons.
    + exact Hm'.
    + rewrite forallb_forall in *. intros s Hin.
      apply in_map_iff in Hin as (s0 & <- & Hin). apply subst1_ok; auto.
Qed.


(** A bracketed text is a sequence of segments. *)
Lemma bracketed_segments_aux (s : str) :
  (bracketed_from false s = true ->
   exists segs, forallb seg_ok segs = true /\ s = render_segments segs)
  /\ (bracketed_from true s = true ->
      exists b segs, no_angle b = true /\ forallb seg_ok segs = true
                     /\ s = b ++ ">" :: render_segments segs).
Proof.
  induction s as [|c s [IHo IHi]]; simpl.
  - split; [now exists [] | discriminate].
  - split.
    + destruct (Ascii.eqb c "<") eqn:E.
      * apply Ascii.eqb_eq in E. subst c. intros H.
        destruct (IHi H) as (b & segs & Hb & Hs & ->).
        exists (Tok b :: segs). split.
        -- simpl. now rewrite Hb, Hs.
        -- unfold render_segments. simpl. unfold token.
           now rewrite <- app_assoc.
      * intros H. destruct (IHo H) as (segs & Hs & ->).
        exists (Lit [c] :: segs). split; [|reflexivity].
        cbn [forallb seg_ok no_lt]. now rewrite E, Hs.
    + destruct (Ascii.eqb c "<") eqn:E; [discriminate|].
      destruct (Ascii.eqb c ">") eqn:E'.
      * apply Ascii.eqb_eq in E'. subst c. intros H.
        destruct (IHo H) as (segs & Hs & ->). now exists [], segs.
      * intros H. destruct (IHi H) as (b & segs & Hb & Hs & ->).
        exists (c :: b), segs. repeat split; [|exact Hs].
        cbn [no_angle forallb]. fold (no_angle b). now rewrite E, E', Hb.
Qed.

Lemma bracketed_segments (s : str) :
  bracketed s = true ->
  exists segs, forallb seg_ok segs = true /\ s = render_segments segs.
Proof. apply bracketed_segments_aux. Qed.

(** ** A token that is no key is never touched *)

Lemma starts_with_extend (p s r : str) :
  Str.starts_with p s = true -> Str.starts_with p (s ++ r) = true.
Proof.
  intros H. apply starts_with_iff in H as [q ->].
  rewrite <- app_assoc. apply starts_with_app.
Qed.

Lemma starts_with_length (p s : str) :
  Str.starts_with p s = true -> length p <= length s.
Proof.
  intros H. apply starts_with_iff in H as [q ->]. rewrite length_app. lia.
Qed.

(** A pattern without ["<"] cannot reach across a ["<"]. *)
Lemma starts_with_before_lt (w r z : str) :
  no_lt w = true ->
  Str.starts_with w (r ++ "<" :: z) = true -> Str.starts_with w r = true.
Proof.
  revert r. induction w as [|a w IH]; intros r Hw H; [reflexivity|].
  simpl in Hw. apply andb_true_iff in Hw as [Ha Hw].
  destruct r as [|y r]; simpl in *.
  - apply andb_true_iff in H as [H _]. rewrite H in Ha. discriminate.
  - apply andb_true_iff in H as [H1 H2]. rewrite H1. simpl. now apply IH.
Qed.

(** An occurrence of a key token that starts before another token ends
    before it. *)
Lemma token_not_across (kb c r post : str) :
  no_angle kb = true -> r <> [] ->
  Str.starts_with (token kb) (r ++ token c ++ post) = true ->
  Str.starts_with (token kb) r = true.
Proof.
  intros Hk Hr H. destruct r as [|y r]; [congruence|].
  unfold token in *. rewrite <- !app_comm_cons in H. simpl in H |- *.
  apply andb_true_iff in H as [H1 H2]. rewrite H1. simpl.
  eapply starts_with_before_lt; [|exact H2].
  rewrite no_lt_app, (no_angle_no_lt _ Hk). reflexivity.
Qed.

Lemma replace_from_around_token (kb c v post : str) :
  no_angle kb = true -> no_angle c = true -> token kb <> token c ->
  forall (pre : str) (n : nat), n <= length pre ->
    Str.replace_from (token kb) v n (pre ++ token c ++ post)
    = Str.replace_from (token kb) v n pre
        ++ token c ++ Str.replace (token kb) v post.
Proof.
  intros Hk Hc Hne. induction pre as [|x pre IH]; intros n Hn.
  - simpl in Hn. assert (n = 0) as -> by lia. cbn [List.app Str.replace_from].
    change (Str.replace_from (token kb) v 0 (token c ++ post))
      with (Str.replace (token kb) v (token c ++ post)).
    rewrite token_app, replace_step.
    + rewrite replace_token_no_lt; [reflexivity|].
      rewrite no_lt_app, (no_angle_no_lt _ Hc). reflexivity.
    + rewrite <- token_app.
      destruct (Str.starts_with (token kb) (token c ++ post)) eqn:P;
        [|reflexivity].
      apply token_prefix in P; [|assumption|assumption]. now subst.
  - rewrite <- app_comm_cons. cbn [Str.replace_from]. destruct n as [|k].
    + destruct (Str.starts_with (token kb) (x :: pre ++ token c ++ post))
        eqn:P.
      * rewrite app_comm_cons in P.
        apply token_not_across in P; [|assumption|discriminate].
        rewrite P. rewrite <- app_assoc. f_equal. apply IH.
        apply starts_with_length in P. simpl in *. lia.
      * destruct (Str.starts_with (token kb) (x :: pre)) eqn:Q.
        -- apply (starts_with_extend _ _ (token c ++ post)) in Q.
           rewrite <- app_comm_cons in Q. congruence.
        -- rewrite <- app_comm_cons. f_equal. apply IH. lia.
    + apply IH. simpl in Hn. lia.
Qed.

Lemma replace_around_token (kb c v pre post : str) :
  no_angle kb = true -> no_angle c = true -> token kb <> token c ->
  Str.replace (token kb) v (pre ++ token c ++ post)
  = Str.replace (token kb) v pre ++ token c ++ Str.replace (token kb) v post.
Proof.
  intros Hk Hc Hne.
  apply (replace_from_around_token kb c v post Hk Hc Hne pre 0). lia.
Qed.

Lemma replace_all_around_token (m : list (str * str)) (c : str) :
  Forall is_token (Dict.keys m) -> no_angle c = true ->
  ~ In (token c) (Dict.keys m) ->
  forall pre post,
    replace_all m (pre ++ token c ++ post)
    = replace_all m pre ++ token c ++ replace_all m post.
Proof.
  intros Hm Hc. induction m as [|[k v] m IH]; intros Hnot pre post.
  - reflexivity.
  - simpl in Hm, Hnot. inversion Hm as [|? ? [kb [-> Hkb]] Hm']; subst.
    unfold replace_all. cbn [fold_left].
    rewrite replace_around_token; [|assumption|assumption|tauto].
    apply IH; [exact Hm' | tauto].
Qed.

Lemma keys_set {V : Type} (d : list (str * V)) (k k' : str) (v : V) :
  In k' (Dict.keys (Dict.set d k v)) -> k' = k \/ In k' (Dict.keys d).
Proof.
  induction d as [|[k0 v0] d IH]; simpl.
  - intros [<-|[]]. now left.
  - destruct (Str.eqb k0 k); simpl; [tauto|].
    intros [H|H]; [tauto|]. destruct (IH H); tauto.
Qed.

Lemma fold_set_keys (l acc : list (str * str)) (k : str) :
  In k (Dict.keys (fold_left (fun rm '(v, p) => Dict.set rm p v) l acc)) ->
  In k (Dict.keys acc) \/ In k (map snd l).
Proof.
  revert acc. induction l as [|[v p] l IH]; intros acc H; simpl in *.
  - now left.
  - destruct (IH _ H) as [H'|H']; [|tauto].
    apply keys_set in H' as [->|H']; tauto.
Qed.

(** Every key of the reverse map is a placeholder of the store. *)
Lemma reverse_map_keys (store : EntityMapping) (k : str) :
  In k (Dict.keys (reverse_map_of store)) -> In k (placeholders store).
Proof.
  unfold reverse_map_of.
  assert (G : forall acc,
    In k (Dict.keys
      (fold_left
         (fun reverse_map '(_, original_map) =>
            fold_left
              (fun reverse_map '(original_value, placeholder) =>
                 Dict.set reverse_map placeholder original_value)
              original_map reverse_map)
         store acc)) ->
    In k (Dict.keys acc) \/ In k (placeholders store)).
  { induction store as [|[t m] store IH]; intros acc H.
    - now left.
    - cbn [fold_left] in H. rewrite placeholders_cons.
      destruct (IH _ H) as [H'|H'].
      + apply fold_set_keys in H'. rewrite in_app_iff. tauto.
      + rewrite in_app_iff. tauto. }
  intros H. destruct (G [] H) as [[]|H']. exact H'.
Qed.

(** ** Entries of an allocator-built store *)

Lemma first_seen_in (t v : str) (calls : list (str * str)) :
  In v (first_seen t calls) -> In (t, v) calls.
Proof.
  induction calls as [|[t' v'] calls IH] using rev_ind; [intros []|].
  rewrite first_seen_snoc, in_app_iff.
  destruct (Str.eqb t' t) eqn:E; cbn [andb].
  - apply str_eqb_eq in E. subst t'.
    destruct (negb (existsb (Str.eqb v') (first_seen t calls))).
    + rewrite in_app_iff. intros [H|[<-|[]]]; [auto | right; now left].
    + auto.
  - auto.
Qed.

Lemma store_after_entry (calls : list (str * str)) (v p : str) :
  In (v, p) (entries (store_after calls)) ->
  exists t n, In (t, v) calls /\ p = REPLACING_FORMAT t n.
Proof.
  intros H. unfold entries in H. apply in_flat_map in H as ([t m] & Hin & Hm).
  cbn [snd] in Hm. pose proof (canonical_store_after calls) as C.
  assert (G : inner_of (store_after calls) t = m).
  { unfold inner_of. destruct C as [ND _].
    now rewrite (in_get_some _ _ _ ND Hin). }
  pose proof (canonical_inner_of _ t C) as Ci. rewrite G in Ci.
  destruct (canonical_inner_entry _ _ _ _ Ci Hm) as (n & _ & ->).
  exists t, n. split; [|reflexivity]. apply first_seen_in.
  rewrite <- keys_first_seen, G. apply (in_map fst) in Hm. exact Hm.
Qed.

Lemma reverse_map_store_after (calls : list (str * str)) :
  reverse_map_of (store_after calls)
  = map (fun e => (snd e, fst e)) (entries (store_after calls)).
Proof.
  apply reverse_map_flat, canonical_placeholders_nodup,
    canonical_store_after.
Qed.

Lemma reverse_map_keys_nodup (calls : list (str * str)) :
  NoDup (Dict.keys (reverse_map_of (store_after calls))).
Proof.
  rewrite reverse_map_store_after. unfold Dict.keys. rewrite map_map.
  cbn [fst]. apply (canonical_placeholders_nodup _ (canonical_store_after calls)).
Qed.


(** An entry, once stored, stays as it is. *)
Lemma allocate_keeps (store : EntityMapping) (t v p t' v' : str) :
  Dict.get (inner_of store t) v = Some p ->
  Dict.get (inner_of (snd (allocate store t' v')) t) v = Some p.
Proof.
  intros G. destruct (allocate_effect store t' v') as [Hframe Heff].
  destruct (Str.eqb t' t) eqn:E.
  - apply str_eqb_eq in E. subst t'.
    destruct (Dict.get (inner_of store t) v') as [q|].
    + now rewrite Heff.
    + cbv zeta in Heff. destruct Heff as [_ ->]. now rewrite get_app, G.
  - apply str_eqb_neq in E. unfold inner_of in *.
    rewrite Hframe by congruence. exact G.
Qed.

Lemma alloc_all_cons (t v : str) (calls : list (str * str))
      (store : EntityMapping) :
  alloc_all ((t, v) :: calls) store
  = alloc_all calls (snd (allocate store t v)).
Proof. reflexivity. Qed.

Lemma alloc_all_keeps (calls : list (str * str)) (store : EntityMapping)
      (t v p : str) :
  Dict.get (inner_of store t) v = Some p ->
  Dict.get (inner_of (alloc_all calls store) t) v = Some p.
Proof.
  revert store. induction calls as [|[t' v'] calls IH]; intros store G.
  - exact G.
  - simpl. apply IH. now apply allocate_keeps.
Qed.

(** ** The forward pass *)

Lemma assign_placeholders_spec (input_text : str) (dets : list Detection)
      (store : EntityMapping) :
  exists items,
    assign_placeholders input_text dets store
    = (Returned items, alloc_all (calls_of input_text dets) store)
    /\ map fst items = dets
    /\ Forall (fun it =>
                 Dict.get (inner_of (alloc_all (calls_of input_text dets) store)
                                    (det_type (fst it)))
                          (det_text input_text (fst it))
                 = Some (snd it)) items.
Proof.
  revert store. induction dets as [|d dets IH]; intros store.
  - exists []. repeat split. constructor.
  - change (calls_of input_text (d :: dets))
      with ((det_type d, det_text input_text d) :: calls_of input_text dets).
    rewrite alloc_all_cons. cbn [assign_placeholders].
    fold (allocate store (det_type d) (det_text input_text d)).
    destruct (allocate_returns store (det_type d) (det_text input_text d))
      as (p & Hp & Hg).
    destruct (allocate store (det_type d) (det_text input_text d))
      as [o store'] eqn:A.
    cbn [fst snd] in *. subst o.
    destruct (IH store') as (items & -> & Hfst & Hall).
    exists ((d, p) :: items). repeat split.
    + cbn [map fst]. now rewrite Hfst.
    + constructor; [|exact Hall].
      cbn [fst snd]. now apply alloc_all_keeps.
Qed.

(** ** The rendered text *)

Lemma render_spans_nil (s : str) (pos : nat) : render_spans [] pos s = s.
Proof.
  revert pos. induction s as [|c s IH]; intros pos; [reflexivity|].
  cbn [render_spans starting_at flat_map covered existsb List.app].
  now rewrite IH.
Qed.

(** In an allocator-built store, the reverse map sends the placeholder of
    an entry back to its original value. *)
Lemma reverse_map_get (calls : list (str * str)) (t v p : str) :
  Dict.get (inner_of (store_after calls) t) v = Some p ->
  Dict.get (reverse_map_of (store_after calls)) p = Some v.
Proof.
  intros G. apply in_get_some; [apply reverse_map_keys_nodup|].
  rewrite reverse_map_store_after. apply in_map_iff. exists (v, p).
  split; [reflexivity|]. unfold entries. apply in_flat_map.
  unfold inner_of in G.
  destruct (Dict.get (store_after calls) t) as [m|] eqn:Gt; [|discriminate].
  exists (t, m). split; [now apply get_some_in | now apply get_some_in].
Qed.



(** ** Occurrences *)


Lemma occurs_app_r (p a b : str) :
  Str.occurs p b = true -> Str.occurs p (a ++ b) = true.
Proof.
  intros H. induction a as [|c a IH]; [exact H|].
  cbn [List.app Str.occurs]. rewrite IH. apply orb_true_r.
Qed.

Lemma occurs_app_r_false (p a b : str) :
  Str.occurs p (a ++ b) = false -> Str.occurs p b = false.
Proof.
  intros H. destruct (Str.occurs p b) eqn:E; [|reflexivity].
  now rewrite (occurs_app_r p a b E) in H.
Qed.

(** ** The replacement loop on a text with holes *)

Lemma starts_with_prefix_transfer (X Y : str) :
  (forall w, no_lt w = true ->
             Str.starts_with w X = true -> Str.starts_with w Y = true) ->
  forall x w, no_lt w = true ->
    Str.starts_with w (x ++ X) = true -> Str.starts_with w (x ++ Y) = true.
Proof.
  intros HXY. induction x as [|c x IH]; intros w Hw H.
  - now apply HXY.
  - destruct w as [|a w]; [reflexivity|].
    cbn [List.app Str.starts_with] in *.
    apply andb_true_iff in H as [H1 H2]. rewrite H1. cbn [andb].
    cbn [no_lt forallb] in Hw. apply andb_true_iff in Hw as [_ Hw].
    now apply IH.
Qed.

Lemma ps_tokens_tail (p : piece) (ps : list piece) :
  ps_tokens (p :: ps) -> ps_tokens ps.
Proof. intros H k v Hin. apply (H k v). now right. Qed.

(** A pattern without ["<"] that matches the text with some holes
    restored matches the text with all holes restored: it cannot run
    into a placeholder. *)
Lemma view_starts_with (restored : list str) (ps : list piece) :
  ps_tokens ps ->
  forall w, no_lt w = true ->
    Str.starts_with w (view restored ps) = true ->
    Str.starts_with w (original ps) = true.
Proof.
  induction ps as [|p ps IH]; intros Hps w Hw H; [exact H|].
  pose proof (ps_tokens_tail _ _ Hps) as Hps'.
  unfold view, original in *. cbn [flat_map] in *.
  destruct p as [c|k v]; cbn [piece_text] in *.
  - eapply starts_with_prefix_transfer; [|exact Hw|exact H].
    intros w' Hw' H'. now apply IH.
  - destruct (existsb (Str.eqb k) restored).
    + eapply starts_with_prefix_transfer; [|exact Hw|exact H].
      intros w' Hw' H'. now apply IH.
    + destruct w as [|a w]; [reflexivity|].
      destruct (Hps k v (or_introl eq_refl)) as (b & -> & _).
      unfold token in H. rewrite <- app_comm_cons in H.
      cbn [Str.starts_with] in H. apply andb_true_iff in H as [H _].
      cbn [no_lt forallb] in Hw. apply andb_true_iff in Hw as [Hw _].
      rewrite H in Hw. discriminate.
Qed.

Lemma replace_raw_prefix (kb v : str) (restored : list str)
      (ps : list piece) :
  ps_tokens ps -> no_angle kb = true ->
  forall x,
    Str.occurs (token kb) (x ++ original ps) = false ->
    Str.replace (token kb) v (x ++ view restored ps)
    = x ++ Str.replace (token kb) v (view restored ps).
Proof.
  intros Hps Hk. induction x as [|c x IH]; intros Ho; [reflexivity|].
  rewrite <- app_comm_cons in Ho. apply occurs_cons in Ho as [H1 H2].
  rewrite <- !app_comm_cons. rewrite replace_step.
  - f_equal. now apply IH.
  - destruct (Str.starts_with (token kb) (c :: x ++ view restored ps))
      eqn:P; [|reflexivity].
    unfold token in P, H1. cbn [Str.starts_with] in P, H1.
    apply andb_true_iff in P as [P1 P2]. rewrite P1 in H1. cbn [andb] in H1.
    assert (Hw : no_lt (kb ++ [">"]) = true).
    { rewrite no_lt_app, (no_angle_no_lt _ Hk). reflexivity. }
    pose proof (starts_with_prefix_transfer _ _
                  (view_starts_with restored ps Hps) x _ Hw P2) as Q.
    congruence.
Qed.

(** One step of the loop: every hole that holds the placeholder of the
    step comes to hold its original value, and nothing else changes, as
    long as the placeholder does not occur in the raw text. *)
Lemma replace_view (kb v : str) (restored : list str) (ps : list piece) :
  ps_tokens ps -> no_angle kb = true ->
  (forall v', In (Hole (token kb) v') ps -> v' = v) ->
  Str.occurs (token kb) (original ps) = false ->
  Str.replace (token kb) v (view restored ps)
  = view (token kb :: restored) ps.
Proof.
  intros Hps Hk. induction ps as [|p ps IH]; intros Hv Ho; [reflexivity|].
  pose proof (ps_tokens_tail _ _ Hps) as Hps'.
  assert (Hv' : forall v', In (Hole (token kb) v') ps -> v' = v).
  { intros v' Hin. apply Hv. now right. }
  destruct p as [c|k v0].
  - change (view restored (Plain c :: ps)) with ([c] ++ view restored ps).
    change (view (token kb :: restored) (Plain c :: ps))
      with ([c] ++ view (token kb :: restored) ps).
    change (original (Plain c :: ps)) with ([c] ++ original ps) in Ho.
    rewrite (replace_raw_prefix kb v restored ps Hps' Hk [c] Ho).
    f_equal. apply IH; auto. now apply (occurs_app_r_false _ [c]).
  - change (original (Hole k v0 :: ps)) with (v0 ++ original ps) in Ho.
    pose proof (occurs_app_r_false _ _ _ Ho) as Ho'.
    unfold view at 1 2. cbn [flat_map piece_text existsb].
    fold (view restored ps) (view (token kb :: restored) ps).
    destruct (existsb (Str.eqb k) restored) eqn:R.
    + rewrite orb_true_r.
      rewrite (replace_raw_prefix kb v restored ps Hps' Hk v0 Ho).
      f_equal. now apply IH.
    + rewrite orb_false_r. destruct (Str.eqb k (token kb)) eqn:E.
      * apply str_eqb_eq in E. subst k.
        rewrite replace_match by discriminate.
        rewrite (Hv v0 (or_introl eq_refl)). f_equal. now apply IH.
      * destruct (Hps k v0 (or_introl eq_refl)) as (b & -> & Hb).
        rewrite token_app, replace_step.
        -- rewrite replace_token_no_lt.
           ++ rewrite IH by auto. reflexivity.
           ++ rewrite no_lt_app, (no_angle_no_lt _ Hb). reflexivity.
        -- rewrite <- token_app.
           destruct (Str.starts_with (token kb) (token b ++ view restored ps))
             eqn:P; [|reflexivity].
           apply token_prefix in P; [|assumption|assumption].
           subst. now rewrite str_eqb_refl in E.
Qed.

Lemma replace_all_view (m : list (str * str)) (ps : list piece) :
  ps_tokens ps ->
  Forall (fun e =>
            is_token (fst e)
            /\ Str.occurs (fst e) (original ps) = false
            /\ forall v', In (Hole (fst e) v') ps -> v' = snd e) m ->
  forall restored,
    replace_all m (view restored ps)
    = view (List.rev (Dict.keys m) ++ restored) ps.
Proof.
  intros Hps. induction m as [|[k v] m IH]; intros Hm restored.
  - reflexivity.
  - inversion Hm as [|? ? ((kb & Hk & Hkb) & Ho & Hv) Hm']; subst.
    cbn [fst snd] in *. subst k.
    unfold replace_all. cbn [fold_left].
    rewrite (replace_view kb v restored ps Hps Hkb Hv Ho).
    fold (replace_all m (view (token kb :: restored) ps)).
    rewrite (IH Hm'). cbn [Dict.keys map fst List.rev].
    now rewrite <- app_assoc.
Qed.

Lemma view_all (restored : list str) (ps : list piece) :
  (forall k v, In (Hole k v) ps -> In k restored) ->
  view restored ps = original ps.
Proof.
  induction ps as [|p ps IH]; intros H; [reflexivity|].
  unfold view, original in *. cbn [flat_map].
  rewrite IH by (intros k v Hin; apply (H k v); now right).
  f_equal. destruct p as [c|k v]; [reflexivity|]. cbn [piece_text].
  assert (E : existsb (Str.eqb k) restored = true).
  { apply existsb_exists. exists k. split; [|apply str_eqb_refl].
    apply (H k v). now left. }
  now rewrite E.
Qed.

(** ** The pieces of the rendered text *)

Lemma view_app (restored : list str) (a b : list piece) :
  view restored (a ++ b) = view restored a ++ view restored b.
Proof. apply flat_map_app. Qed.

Lemma original_app (a b : list piece) :
  original (a ++ b) = original a ++ original b.
Proof. apply flat_map_app. Qed.

Lemma view_holes_at (input_text : str) (items : list (Detection * str))
      (pos : nat) :
  view [] (holes_at input_text items pos) = starting_at items pos.
Proof.
  unfold holes_at, starting_at. induction items as [|[d ph] items IH].
  - reflexivity.
  - cbn [flat_map fst snd]. rewrite view_app, IH.
    destruct (Nat.eqb (det_start d) pos); [|reflexivity].
    unfold view. cbn [flat_map piece_text existsb]. now rewrite app_nil_r.
Qed.

Lemma render_spans_view (input_text : str) (items : list (Detection * str))
      (s : str) :
  forall pos,
    render_spans items pos s = view [] (span_pieces input_text items pos s).
Proof.
  induction s as [|c s IH]; intros pos; cbn [render_spans span_pieces].
  - now rewrite view_app, view_holes_at.
  - rewrite !view_app, view_holes_at, <- IH. f_equal. f_equal.
    now destruct (covered items pos).
Qed.

Lemma span_pieces_holes (input_text : str) (items : list (Detection * str))
      (k v : str) (s : str) :
  forall pos,
    In (Hole k v) (span_pieces input_text items pos s) ->
    exists it, In it items /\ k = snd it /\ v = det_text input_text (fst it).
Proof.
  assert (H0 : forall pos, In (Hole k v) (holes_at input_text items pos) ->
            exists it, In it items /\ k = snd it
                       /\ v = det_text input_text (fst it)).
  { intros pos Hin. unfold holes_at in Hin.
    apply in_flat_map in Hin as (it & Hit & Hin).
    destruct (Nat.eqb (det_start (fst it)) pos); [|destruct Hin].
    destruct Hin as [E|[]]. inversion E; subst. now exists it. }
  induction s as [|c s IH]; intros pos Hin; cbn [span_pieces] in Hin.
  - rewrite app_nil_r in Hin. now apply (H0 pos).
  - apply in_app_iff in Hin as [Hin|Hin]; [now apply (H0 pos)|].
    apply in_app_iff in Hin as [Hin|Hin]; [|now apply (IH (S pos))].
    destruct (covered items pos); [destruct Hin|].
    destruct Hin as [E|[]]. discriminate.
Qed.

(** ** Spans that lie apart *)

Lemma apart_sym (d d' : Detection) : apart d d' = apart d' d.
Proof. unfold apart. apply orb_comm. Qed.

Lemma apart_or_eq (dets : list Detection) (d d' : Detection) :
  pairwise_apart dets = true -> In d dets -> In d' dets ->
  d = d' \/ apart d d' = true.
Proof.
  induction dets as [|x dets IH]; intros P Hd Hd'; [destruct Hd|].
  cbn [pairwise_apart] in P. apply andb_true_iff in P as [Px P].
  rewrite forallb_forall in Px. destruct Hd as [<-|Hd], Hd' as [<-|Hd'].
  - now left.
  - right. now apply Px.
  - right. rewrite apart_sym. now apply Px.
  - now apply IH.
Qed.

Lemma reach_ge (dets : list Detection) (pos : nat) : pos <= reach dets pos.
Proof.
  induction dets as [|d dets IH]; cbn [reach fold_right]; [lia|].
  fold (reach dets pos). destruct (Nat.eqb (det_start d) pos); lia.
Qed.

Lemma reach_max (dets : list Detection) (pos : nat) (d : Detection) :
  In d dets -> det_start d = pos -> det_end d <= reach dets pos.
Proof.
  induction dets as [|x dets IH]; intros Hin Hs; [destruct Hin|].
  cbn [reach fold_right]. fold (reach dets pos). destruct Hin as [->|Hin].
  - rewrite Hs, Nat.eqb_refl. lia.
  - specialize (IH Hin Hs). destruct (Nat.eqb (det_start x) pos); lia.
Qed.

Lemma reach_attained (dets : list Detection) (pos : nat) :
  pos < reach dets pos ->
  exists d, In d dets /\ det_start d = pos /\ det_end d = reach dets pos.
Proof.
  induction dets as [|x dets IH]; cbn [reach fold_right]; [lia|].
  fold (reach dets pos). destruct (Nat.eqb (det_start x) pos) eqn:E.
  - apply Nat.eqb_eq in E. intros H.
    destruct (Nat.le_gt_cases (reach dets pos) (det_end x)) as [L|G].
    + exists x. repeat split; [now left | exact E | lia].
    + destruct IH as (d & Hin & Hs & He); [pose proof (reach_ge dets pos); lia|].
      exists d. repeat split; [now right | exact Hs | lia].
  - intros H. destruct (IH H) as (d & Hin & Hs & He).
    exists d. repeat split; [now right | exact Hs | exact He].
Qed.

(** When a span that starts at [pos] is not empty, every other span of
    the list that starts there is. *)
Lemma reach_of_rest (input_text : str) (d : Detection) (dets : list Detection)
      (pos : nat) :
  forallb (apart d) dets = true ->
  forallb (valid_span input_text) dets = true ->
  det_start d = pos -> pos < det_end d ->
  reach dets pos = pos.
Proof.
  intros Ha Hv Hs He. induction dets as [|x dets IH]; [reflexivity|].
  cbn [forallb] in Ha, Hv.
  apply andb_true_iff in Ha as [Hx Ha]. apply andb_true_iff in Hv as [Vx Hv].
  cbn [reach fold_right]. fold (reach dets pos). rewrite (IH Ha Hv).
  destruct (Nat.eqb (det_start x) pos) eqn:E; [|reflexivity].
  apply Nat.eqb_eq in E. unfold apart in Hx. unfold valid_span in Vx.
  apply andb_true_iff in Vx as [V1 _]. apply Nat.leb_le in V1.
  apply orb_true_iff in Hx as [Hx|Hx]; apply Nat.leb_le in Hx; lia.
Qed.

Lemma slice_empty (s : str) (pos : nat) : Str.slice s pos pos = [].
Proof. unfold Str.slice. now rewrite Nat.sub_diag. Qed.

(** The original values of the holes at an offset make up the raw text
    from there up to the furthest end of the spans that start there. *)
Lemma original_holes_at (input_text : str) (items : list (Detection * str))
      (pos : nat) :
  pairwise_apart (map fst items) = true ->
  forallb (valid_span input_text) (map fst items) = true ->
  original (holes_at input_text items pos)
  = Str.slice input_text pos (reach (map fst items) pos).
Proof.
  induction items as [|it items IH]; intros P V.
  - cbn. symmetry. apply slice_empty.
  - cbn [map pairwise_apart forallb] in P, V.
    apply andb_true_iff in P as [Pa P]. apply andb_true_iff in V as [Vd V].
    unfold holes_at. cbn [flat_map map reach fold_right].
    fold (holes_at input_text items pos) (reach (map fst items) pos).
    rewrite original_app, (IH P V).
    destruct (Nat.eqb (det_start (fst it)) pos) eqn:E; [|reflexivity].
    apply Nat.eqb_eq in E.
    unfold original at 1. cbn [flat_map]. rewrite app_nil_r.
    unfold det_text. rewrite E.
    unfold valid_span in Vd. apply andb_true_iff in Vd as [V1 _].
    apply Nat.leb_le in V1.
    destruct (Nat.eq_dec (det_end (fst it)) pos) as [Z|NZ].
    + rewrite Z, slice_empty. cbn [List.app]. f_equal.
      pose proof (reach_ge (map fst items) pos). lia.
    + rewrite (reach_of_rest input_text (fst it) (map fst items) pos Pa V E)
        by lia.
      rewrite slice_empty, app_nil_r. f_equal. lia.
Qed.

Lemma holes_at_none (input_text : str) (items : list (Detection * str))
      (pos : nat) :
  (forall d, In d (map fst items) -> det_start d <> pos) ->
  holes_at input_text items pos = [].
Proof.
  intros H. unfold holes_at. induction items as [|it items IH]; [reflexivity|].
  cbn [flat_map]. rewrite IH by (intros d Hd; apply H; now right).
  assert (E : Nat.eqb (det_start (fst it)) pos = false).
  { apply Nat.eqb_neq. apply H. now left. }
  now rewrite E.
Qed.

Lemma covered_true (items : list (Detection * str)) (pos : nat)
      (d : Detection) :
  In d (map fst items) -> det_start d <= pos -> pos < det_end d ->
  covered items pos = true.
Proof.
  intros Hin H1 H2. apply in_map_iff in Hin as (it & <- & Hin).
  unfold covered. apply existsb_exists. exists it. split; [exact Hin|].
  apply andb_true_iff. split; [now apply Nat.leb_le | now apply Nat.ltb_lt].
Qed.

Lemma covered_false (items : list (Detection * str)) (pos : nat) :
  (forall d, In d (map fst items) -> det_start d <= pos -> det_end d <= pos) ->
  covered items pos = false.
Proof.
  intros H. destruct (covered items pos) eqn:C; [|reflexivity].
  unfold covered in C. apply existsb_exists in C as (it & Hin & C).
  apply andb_true_iff in C as [C1 C2].
  apply Nat.leb_le in C1. apply Nat.ltb_lt in C2.
  specialize (H (fst it) (in_map fst _ _ Hin) C1). lia.
Qed.

(** With every hole showing its original value the pieces spell the raw
    text: from offset [pos], after the [r] characters that a span begun
    earlier still covers. *)
Lemma original_span_pieces (input_text : str)
      (items : list (Detection * str)) :
  pairwise_apart (map fst items) = true ->
  forallb (valid_span input_text) (map fst items) = true ->
  forall s pos r,
    skipn pos input_text = s ->
    (forall d, In d (map fst items) ->
               det_start d < pos -> det_end d <= pos + r) ->
    (r = 0 \/ exists d, In d (map fst items)
                        /\ det_start d < pos /\ det_end d = pos + r) ->
    original (span_pieces input_text items pos s) = skipn r s.
Proof.
  intros P V. set (dets := map fst items) in *.
  assert (Valid : forall d, In d dets -> det_start d <= det_end d).
  { intros d Hd. rewrite forallb_forall in V. specialize (V d Hd).
    unfold valid_span in V. apply andb_true_iff in V as [V1 _].
    now apply Nat.leb_le. }
  induction s as [|c s IH]; intros pos r Hs Hb Hr.
  - cbn [span_pieces]. rewrite app_nil_r, skipn_nil.
    rewrite (original_holes_at input_text items pos P V).
    unfold Str.slice. rewrite Hs. apply firstn_nil.
  - assert (Hs' : skipn (S pos) input_text = s).
    { replace (S pos) with (1 + pos) by lia.
      rewrite <- skipn_skipn, Hs. reflexivity. }
    cbn [span_pieces]. rewrite !original_app. destruct r as [|r].
    + rewrite (original_holes_at input_text items pos P V).
      fold dets. unfold Str.slice. rewrite Hs.
      pose proof (reach_ge dets pos) as Hge.
      destruct (Nat.eq_dec (reach dets pos) pos) as [Z|NZ].
      * rewrite Z, Nat.sub_diag. cbn [firstn List.app].
        rewrite covered_false.
        -- cbn. f_equal. rewrite (IH (S pos) 0 Hs'); [reflexivity| |now left].
           intros d Hd Hlt. destruct (Nat.eq_dec (det_start d) pos) as [E|N].
           ++ pose proof (reach_max dets pos d Hd E). lia.
           ++ assert (det_start d < pos) as L by lia.
              specialize (Hb d Hd L). lia.
        -- intros d Hd Hle. destruct (Nat.eq_dec (det_start d) pos) as [E|N].
           ++ pose proof (reach_max dets pos d Hd E). lia.
           ++ assert (det_start d < pos) as L by lia.
              specialize (Hb d Hd L). lia.
      * destruct (reach_attained dets pos) as (d & Hd & Hds & Hde); [lia|].
        rewrite (covered_true items pos d Hd); [|lia|lia].
        cbn [original flat_map List.app].
        remember (reach dets pos - pos - 1) as j eqn:Hj.
        replace (reach dets pos - pos) with (S j) by lia.
        rewrite (IH (S pos) j Hs').
        -- cbn [firstn List.app skipn]. f_equal. apply firstn_skipn.
        -- intros d' Hd' Hlt.
           destruct (Nat.eq_dec (det_start d') pos) as [E|N].
           ++ pose proof (reach_max dets pos d' Hd' E). lia.
           ++ assert (det_start d' < pos) as L by lia.
              specialize (Hb d' Hd' L). lia.
        -- right. exists d. repeat split; [exact Hd | lia | lia].
    + destruct Hr as [Hr|(d & Hd & Hds & Hde)]; [discriminate|].
      assert (None : forall d', In d' dets -> det_start d' <> pos).
      { intros d' Hd' E. pose proof (Valid d' Hd') as Vd'.
        destruct (apart_or_eq dets d d' P Hd Hd') as [->|A]; [lia|].
        unfold apart in A.
        apply orb_true_iff in A as [A|A]; apply Nat.leb_le in A; lia. }
      rewrite (holes_at_none input_text items pos None).
      rewrite (covered_true items pos d Hd); [|lia|lia].
      cbn [original flat_map List.app skipn].
      apply (IH (S pos) r Hs').
      * intros d' Hd' Hlt.
        destruct (Nat.eq_dec (det_start d') pos) as [E|N];
          [now apply None in E|].
        assert (det_start d' < pos) as L by lia.
        specialize (Hb d' Hd' L). lia.
      * right. exists d. repeat split; [exact Hd | lia | lia].
Qed.

Lemma subst_all_ok (m : list (str * str)) (s : segment) :
  Forall item_ok m -> seg_ok s = true -> seg_ok (subst_all m s) = true.
Proof.
  intros Hm Hs. destruct s as [l|b]; [exact Hs|]. cbn [subst_all].
  destruct (Dict.get m (token b)) as [v|] eqn:G; [|exact Hs].
  apply get_some_in in G. rewrite Forall_forall in Hm.
  now destruct (Hm _ G) as [_ Hv].
Qed.



(** * The properties *)

(** ** Scenarios of the specification *)

Example peter_lives_in_london :
  anonymize_text (py "Peter lives in London.")
    [mkDetection (py "PERSON") 0 5; mkDetection (py "LOCATION") 15 21]
  = Returned
      (py "<PERSON_0> lives in <LOCATION_0>.",
       [(py "PERSON", [(py "Peter", py "<PERSON_0>")]);
        (py "LOCATION", [(py "London", py "<LOCATION_0>")])])
  /\ deanonymize_text (py "<PERSON_0> lives in <LOCATION_0>.")
       [(py "PERSON", [(py "Peter", py "<PERSON_0>")]);
        (py "LOCATION", [(py "London", py "<LOCATION_0>")])]
     = py "Peter lives in London.".
Proof. split; vm_compute; reflexivity. Qed.

Example same_person_twice :
  anonymize_text (py "Peter and Peter")
    [mkDetection (py "PERSON") 0 5; mkDetection (py "PERSON") 10 15]
  = Returned (py "<PERSON_0> and <PERSON_0>",
              [(py "PERSON", [(py "Peter", py "<PERSON_0>")])]).
Proof. vm_compute; reflexivity. Qed.

Example type_isolation :
  let s1 := snd (allocate [] (py "PERSON") (py "London")) in
  fst (allocate [] (py "PERSON") (py "London")) = Returned (py "<PERSON_0>")
  /\ fst (allocate s1 (py "LOCATION") (py "London"))
     = Returned (py "<LOCATION_0>").
Proof. split; vm_compute; reflexivity. Qed.

(** ** C2: allocation is idempotent *)

(** C2.  If [original_value] already has an entry in the inner mapping of
    [entity_type], the allocator returns that placeholder and leaves the
    store as it is; and for any store, a second call with the same pair
    returns the placeholder of the first call and changes nothing. *)
Theorem allocate_idempotent (store : EntityMapping) (t v : str) :
  (forall p, Dict.get (inner_of store t) v = Some p ->
             allocate store t v = (Returned p, store))
  /\ exists p, fst (allocate store t v) = Returned p
               /\ allocate (snd (allocate store t v)) t v
                  = (Returned p, snd (allocate store t v)).
Proof.
  split.
  - intros p G. destruct (allocate_effect store t v) as [_ H].
    now rewrite G in H.
  - destruct (allocate_returns store t v) as (p & Hp & Hg).
    exists p. split; [exact Hp|].
    destruct (allocate_effect (snd (allocate store t v)) t v) as [_ H].
    now rewrite Hg in H.
Qed.

Lemma allocate_idempotent_witness :
  let store := [(py "PERSON", [(py "Peter", py "<PERSON_0>")])] in
  Dict.get (inner_of store (py "PERSON")) (py "Peter")
  = Some (py "<PERSON_0>")
  /\ allocate store (py "PERSON") (py "Peter")
     = (Returned (py "<PERSON_0>"), store).
Proof.
  intros store. split; [reflexivity|].
  apply (proj1 (allocate_idempotent store (py "PERSON") (py "Peter"))).
  reflexivity.
Defined.

(** ** C3: sequential indexing *)

(** C3.  Starting from the empty store, let a call [(t, v)] follow any
    sequence of calls [pre].  If [v] is the value number [n] (counting
    from 0) among the distinct values allocated for type [t] so far,
    whatever calls for other types lie in between, then the call returns
    exactly [<t_n>], the store holds that placeholder for [v], and when
    [v] is new [n] is the size of the inner mapping of [t] at the time of
    the call. *)
Theorem sequential_indexing (pre : list (str * str)) (t v : str) (n : nat) :
  nth_error (first_seen t (pre ++ [(t, v)])) n = Some v ->
  fst (allocate (store_after pre) t v)
  = Returned ("<" :: t ++ "_" :: Str.of_nat n ++ [">"])
  /\ Dict.get (inner_of (store_after (pre ++ [(t, v)])) t) v
     = Some (REPLACING_FORMAT t n)
  /\ (Dict.get (inner_of (store_after pre) t) v = None ->
      n = length (inner_of (store_after pre) t)).
Proof.
  intros Hn. rewrite store_after_snoc.
  pose proof (canonical_inner_of _ t (canonical_store_after pre)) as Ci.
  pose proof (keys_first_seen pre t) as K.
  rewrite first_seen_snoc, str_eqb_refl, <- K, existsb_keys in Hn.
  cbn [andb] in Hn.
  destruct (allocate_effect (store_after pre) t v) as [_ H].
  destruct (Dict.get (inner_of (store_after pre) t) v) as [p|] eqn:G.
  - cbn [negb] in Hn. pose proof (canonical_inner_nth _ _ _ _ Ci Hn) as G'.
    rewrite G in G'. inversion G'; subst p. rewrite H. cbn [fst snd].
    repeat split; [exact G | discriminate].
  - cbn [negb] in Hn. cbv zeta in H. destruct H as [H1 H2].
    assert (n = length (inner_of (store_after pre) t)) as ->.
    { apply get_none_iff in G.
      destruct (Nat.lt_ge_cases n
                  (length (Dict.keys (inner_of (store_after pre) t))))
        as [Hlt|Hge].
      - rewrite nth_error_app1 in Hn by exact Hlt.
        apply nth_error_In in Hn. contradiction.
      - rewrite nth_error_app2 in Hn by exact Hge.
        unfold Dict.keys in *. rewrite length_map in *.
        destruct (n - length (inner_of (store_after pre) t)) as [|k] eqn:E.
        + lia.
        + destruct k; discriminate. }
    rewrite H1, H2, get_app, G. cbn [Dict.get]. rewrite str_eqb_refl.
    repeat split.
Qed.

Lemma sequential_indexing_witness :
  let pre := [(py "PERSON", py "Peter"); (py "LOCATION", py "London")] in
  nth_error (first_seen (py "PERSON") (pre ++ [(py "PERSON", py "Heidi")])) 1
  = Some (py "Heidi")
  /\ fst (allocate (store_after pre) (py "PERSON") (py "Heidi"))
     = Returned (py "<PERSON_1>").
Proof.
  intros pre. split; [reflexivity|].
  apply (sequential_indexing pre (py "PERSON") (py "Heidi") 1).
  reflexivity.
Defined.

(** ** C4: placeholders are unique across the store *)

(** C4.  In every store built by allocator calls from the empty store the
    placeholders of all entries are pairwise distinct, so the loop that
    builds the reverse map never assigns to a key that is already there:
    the reverse map is the list of all entries, each turned around, and
    its keys are pairwise distinct. *)
Theorem placeholders_unique (calls : list (str * str)) :
  NoDup (placeholders (store_after calls))
  /\ reverse_map_of (store_after calls)
     = map (fun e => (snd e, fst e)) (entries (store_after calls))
  /\ NoDup (Dict.keys (reverse_map_of (store_after calls)))
  /\ length (reverse_map_of (store_after calls))
     = length (entries (store_after calls)).
Proof.
  repeat split.
  - apply canonical_placeholders_nodup, canonical_store_after.
  - apply reverse_map_store_after.
  - apply reverse_map_keys_nodup.
  - rewrite reverse_map_store_after. apply length_map.
Qed.

(** ** C8: no detections *)

(** C8.  With no detections the forward pass returns the raw text and the
    empty store. *)
Theorem anonymize_no_detections (input_text : str) :
  anonymize_text input_text [] = Returned (input_text, []).
Proof.
  unfold anonymize_text. cbn [forallb assign_placeholders].
  now rewrite render_spans_nil.
Qed.

(** ** C9: the allocator always succeeds *)

(** C9.  Called with both parameters, the operator returns a placeholder
    for every store, entity type and original value (the value is not
    looked into).  It raises exactly when ["entity_mapping"] or
    ["entity_type"] is missing from [params], and so does [validate]. *)
Theorem allocator_total :
  (forall store t v, exists p, fst (allocate store t v) = Returned p)
  /\ (forall text params store,
        raised (fst (operate text params store))
        = lacks_entity_mapping params || lacks_entity_type params)
  /\ (forall params,
        raised (validate params)
        = lacks_entity_mapping params || lacks_entity_type params).
Proof.
  split; [|split].
  - intros store t v. destruct (allocate_returns store t v) as (p & Hp & _).
    now exists p.
  - intros text [[[|] [t|]]|] store; try reflexivity.
    change (operate text (Some (mkParams true (Some t))) store)
      with (allocate store t text).
    destruct (allocate_returns store t text) as (p & -> & _). reflexivity.
  - intros [[[|] [t|]]|]; reflexivity.
Qed.

(** ** C10: what a call may change *)

(** C10.  A call of the operator leaves the inner mapping of every entity
    type other than its own as it was; in the inner mapping of its own
    type every entry stays as it was; the store is either unchanged, or
    the inner mapping of the call's type has gained the one entry
    [text -> placeholder] for a [text] that had none; and when the call
    raises, the store is unchanged. *)
Theorem allocation_frame (text : str) (params : option Params)
        (store : EntityMapping) :
  let store' := snd (operate text params store) in
  (forall t', type_of params <> Some t' ->
              Dict.get store' t' = Dict.get store t')
  /\ (forall t v p, Dict.get (inner_of store t) v = Some p ->
                    Dict.get (inner_of store' t) v = Some p)
  /\ (store' = store
      \/ exists t p,
           type_of params = Some t
           /\ fst (operate text params store) = Returned p
           /\ Dict.get (inner_of store t) text = None
           /\ inner_of store' t = inner_of store t ++ [(text, p)])
  /\ (raised (fst (operate text params store)) = true -> store' = store).
Proof.
  destruct params as [[[|] [t|]]|];
    try (cbn; repeat split; auto; fail).
  change (operate text (Some (mkParams true (Some t))) store)
    with (allocate store t text).
  cbn [type_of entity_type_param]. cbv zeta.
  destruct (allocate_effect store t text) as [Hframe Heff].
  split; [|split; [|split]].
  - intros t' N. apply Hframe. congruence.
  - intros t0 v p G. now apply allocate_keeps.
  - destruct (Dict.get (inner_of store t) text) as [p|] eqn:G.
    + left. now rewrite Heff.
    + right. cbv zeta in Heff. destruct Heff as [H1 H2].
      exists t, (REPLACING_FORMAT t (length (inner_of store t))).
      repeat split; assumption.
  - destruct (allocate_returns store t text) as (p & -> & _). discriminate.
Qed.

Lemma allocation_frame_witness :
  let store := [(py "PERSON", [(py "Peter", py "<PERSON_0>")]);
                (py "LOCATION", [(py "London", py "<LOCATION_0>")])] in
  let store' :=
    snd (operate (py "Heidi") (Some (mkParams true (Some (py "PERSON")))) store)
  in
  Dict.get store' (py "LOCATION") = Dict.get store (py "LOCATION")
  /\ Dict.get (inner_of store' (py "PERSON")) (py "Peter")
     = Some (py "<PERSON_0>").
Proof.
  intros store store'.
  destruct (allocation_frame (py "Heidi")
              (Some (mkParams true (Some (py "PERSON")))) store)
    as (H1 & H2 & _).
  split.
  - apply H1. discriminate.
  - apply H2. reflexivity.
Defined.

(** ** C7: a placeholder that does not occur *)




(** ** C6: tokens that are not in the store *)

(** C6, at an input where it fails.  One allocator call for the entity
    type [PERSON_5>] gives the store the placeholder [<PERSON_5>_0>].  In
    the text [<PERSON_5>_0>] the token [<PERSON_5>] has the placeholder
    syntax and is no key of the reverse map, yet the pass replaces the
    text by [Bob] and the token is gone. *)
Lemma unknown_token_rewritten :
  let store := store_after [(py "PERSON_5>", py "Bob")] in
  let tok := REPLACING_FORMAT (py "PERSON") 5 in
  let text := tok ++ py "_0>" in
  tok = py "<PERSON_5>"
  /\ reverse_map_of store = [(py "<PERSON_5>_0>", py "Bob")]
  /\ ~ In tok (Dict.keys (reverse_map_of store))
  /\ Str.occurs tok text = true
  /\ deanonymize_text text store = py "Bob"
  /\ Str.occurs tok (deanonymize_text text store) = false.
Proof.
  vm_compute. repeat split. intros [H|[]]. discriminate.
Qed.

(** C6, amended.  Let every placeholder of the store be a token: a ["<"],
    a body without angle brackets, a [">"] (so it is for every store the
    allocator builds from entity types without angle brackets).  Then a
    token of the text that is no key of the reverse map comes out of the
    pass unchanged, between the results of the pass on the text before it
    and on the text after it; the pass is a total function and raises
    nothing. *)
Theorem unknown_token_stable (store : EntityMapping) (pre c post : str) :
  Forall is_token (placeholders store) ->
  no_angle c = true ->
  ~ In (token c) (Dict.keys (reverse_map_of store)) ->
  deanonymize_text (pre ++ token c ++ post) store
  = deanonymize_text pre store ++ token c ++ deanonymize_text post store.
Proof.
  intros Hs Hc Hnot. unfold deanonymize_text.
  apply replace_all_around_token; [|exact Hc|exact Hnot].
  rewrite Forall_forall in *. intros k Hk.
  apply Hs. now apply reverse_map_keys.
Qed.

Lemma unknown_token_stable_witness :
  let store := [(py "PERSON", [(py "Peter", py "<PERSON_0>")])] in
  Forall is_token (placeholders store)
  /\ no_angle (py "PERSON_5") = true
  /\ ~ In (token (py "PERSON_5")) (Dict.keys (reverse_map_of store))
  /\ deanonymize_text (py "<PERSON_0> met <PERSON_5> today.") store
     = py "Peter met <PERSON_5> today.".
Proof.
  intros store.
  assert (H1 : Forall is_token (placeholders store)).
  { repeat constructor. exists (py "PERSON_0"). split; reflexivity. }
  assert (H3 : ~ In (token (py "PERSON_5")) (Dict.keys (reverse_map_of store))).
  { intros [H|[]]. discriminate. }
  split; [exact H1|]. split; [reflexivity|]. split; [exact H3|].
  change (py "<PERSON_0> met <PERSON_5> today.")
    with (py "<PERSON_0> met " ++ token (py "PERSON_5") ++ py " today.").
  rewrite (unknown_token_stable store (py "<PERSON_0> met ") (py "PERSON_5")
             (py " today.") H1 eq_refl H3).
  reflexivity.
Defined.

(** Stores built by the allocator from entity types without angle
    brackets satisfy the hypothesis of [unknown_token_stable]. *)
Lemma store_after_placeholders_tokens (calls : list (str * str)) :
  (forall t v, In (t, v) calls -> no_angle t = true) ->
  Forall is_token (placeholders (store_after calls)).
Proof.
  intros H. apply Forall_forall. intros p Hp.
  unfold placeholders in Hp. apply in_map_iff in Hp as ([v p'] & E & Hin).
  cbn [snd] in E. subst p'.
  destruct (store_after_entry _ _ _ Hin) as (t & n & Hc & ->).
  exists (t ++ "_" :: Str.of_nat n). split.
  - apply format_token.
  - apply format_body_no_angle. eapply H; exact Hc.
Qed.

(** ** C5: the order of the replacements *)




(** ** C1: the round trip *)

(** C1, at an input where it fails.  The raw text is [Bob, <PERSON_1>]
    with both words detected as [PERSON], the detections listed from the
    last span to the first.  The forward pass allocates [<PERSON_0>] for
    [<PERSON_1>] and [<PERSON_1>] for [Bob] and gives
    [<PERSON_1>, <PERSON_0>]; the reverse pass on it, with the store of the
    forward pass, gives [Bob, Bob]: the detected value [<PERSON_1>] is not
    restored and occurs nowhere in the result. *)
Lemma round_trip_loses_placeholder_value :
  let raw := py "Bob, <PERSON_1>" in
  let dets := [mkDetection (py "PERSON") 5 15; mkDetection (py "PERSON") 0 3] in
  let store := [(py "PERSON", [(py "<PERSON_1>", py "<PERSON_0>");
                               (py "Bob", py "<PERSON_1>")])] in
  det_text raw (mkDetection (py "PERSON") 5 15) = py "<PERSON_1>"
  /\ det_text raw (mkDetection (py "PERSON") 0 3) = py "Bob"
  /\ anonymize_text raw dets = Returned (py "<PERSON_1>, <PERSON_0>", store)
  /\ deanonymize_text (py "<PERSON_1>, <PERSON_0>") store = py "Bob, Bob"
  /\ deanonymize_text (py "<PERSON_1>, <PERSON_0>") store <> raw
  /\ Str.occurs (py "<PERSON_1>")
       (deanonymize_text (py "<PERSON_1>, <PERSON_0>") store) = false.
Proof. vm_compute. repeat split. discriminate. Qed.

(** C1, amended.  Let every detection be a span of the raw text with an
    entity type without angle brackets, and let no two spans overlap.
    Then the forward pass returns; and if none of the placeholders in the
    store it produced occurs in the raw text, the reverse pass on its text
    with that store gives back the raw text, so every detected value
    stands again where its placeholder was put. *)
Theorem round_trip_fresh_placeholders (input_text : str)
        (dets : list Detection) :
  forallb (fun d => no_angle (det_type d)) dets = true ->
  forallb (valid_span input_text) dets = true ->
  pairwise_apart dets = true ->
  exists text store,
    anonymize_text input_text dets = Returned (text, store)
    /\ (forallb (fun p => negb (Str.occurs p input_text)) (placeholders store)
        = true ->
        deanonymize_text text store = input_text).
Proof.
  intros Htypes Hvalid Hapart. unfold anonymize_text. rewrite Hvalid.
  destruct (assign_placeholders_spec input_text dets [])
    as (items & -> & Hfst & Hall).
  set (calls := calls_of input_text dets) in *.
  change (alloc_all calls []) with (store_after calls) in *.
  do 2 eexists. split; [reflexivity|]. intros Hfresh.
  set (M := reverse_map_of (store_after calls)).
  set (ps := span_pieces input_text items 0 input_text).
  assert (Horig : original ps = input_text).
  { unfold ps. rewrite <- Hfst in Hvalid, Hapart.
    rewrite (original_span_pieces input_text items Hapart Hvalid
               input_text 0 0 eq_refl); [reflexivity| |now left].
    intros d _ Hlt. lia. }
  assert (Hkeys : forall k, In k (Dict.keys M) ->
            is_token k /\ Str.occurs k input_text = false).
  { intros k Hk. apply reverse_map_keys in Hk. split.
    - assert (F : Forall is_token (placeholders (store_after calls))).
      { apply store_after_placeholders_tokens. intros t v Hin.
        apply in_map_iff in Hin as (d & E & Hin). injection E as Et _.
        rewrite <- Et. rewrite forallb_forall in Htypes. now apply Htypes. }
      rewrite Forall_forall in F. now apply F.
    - rewrite forallb_forall in Hfresh. specialize (Hfresh _ Hk).
      now apply negb_true_iff in Hfresh. }
  assert (Hholes : forall k v, In (Hole k v) ps -> Dict.get M k = Some v).
  { intros k v Hin. unfold ps in Hin.
    apply span_pieces_holes in Hin as (it & Hit & -> & ->).
    rewrite Forall_forall in Hall. specialize (Hall _ Hit).
    eapply reverse_map_get; exact Hall. }
  assert (Hin_keys : forall k v, In (Hole k v) ps -> In k (Dict.keys M)).
  { intros k v Hin. apply Hholes in Hin. apply get_some_in in Hin.
    apply (in_map fst) in Hin. exact Hin. }
  assert (Hps : ps_tokens ps).
  { intros k v Hin. now apply Hkeys, (Hin_keys k v). }
  unfold deanonymize_text. fold M.
  rewrite (render_spans_view input_text). fold ps.
  rewrite (replace_all_view M ps Hps).
  - rewrite view_all; [exact Horig|].
    intros k v Hin. rewrite app_nil_r, <- in_rev. now apply (Hin_keys k v).
  - apply Forall_forall. intros [k v] He. cbn [fst snd].
    pose proof (in_map fst _ _ He) as Hk. cbn [fst] in Hk.
    destruct (Hkeys k Hk) as [Ht Ho]. split; [exact Ht|]. split.
    + now rewrite Horig.
    + intros v' Hin. apply Hholes in Hin.
      pose proof (in_get_some M k v (reverse_map_keys_nodup calls) He) as G.
      congruence.
Qed.

Lemma round_trip_fresh_placeholders_witness :
  let raw := py "Peter: 1 < 2 in London." in
  let dets := [mkDetection (py "PERSON") 0 5;
               mkDetection (py "LOCATION") 16 22;
               mkDetection (py "DATE") 6 6] in
  forallb (fun d => no_angle (det_type d)) dets = true
  /\ forallb (valid_span raw) dets = true
  /\ pairwise_apart dets = true
  /\ anonymize_text raw dets
     = Returned
         (py "<PERSON_0>:<DATE_0> 1 < 2 in <LOCATION_0>.",
          [(py "PERSON", [(py "Peter", py "<PERSON_0>")]);
           (py "LOCATION", [(py "London", py "<LOCATION_0>")]);
           (py "DATE", [(py "", py "<DATE_0>")])])
  /\ exists text store,
       anonymize_text raw dets = Returned (text, store)
       /\ deanonymize_text text store = raw.
Proof.
  intros raw dets.
  split; [reflexivity|]. split; [reflexivity|]. split; [reflexivity|].
  split; [reflexivity|].
  destruct (round_trip_fresh_placeholders raw dets eq_refl eq_refl eq_refl)
    as (text & store & Ha & Hrt).
  exists text, store. split; [exact Ha|]. apply Hrt.
  vm_compute in Ha. inversion Ha. reflexivity.
Defined.

(** Why the amended C1 asks for entity types without angle brackets and
    for spans that do not overlap: without either the round trip fails
    although no placeholder occurs in the raw text. *)
Example round_trip_needs_plain_types :
  anonymize_text (py "uv")
    [mkDetection (py "A") 0 1; mkDetection (py "X<A_0>") 1 2]
  = Returned (py "<A_0><X<A_0>_0>",
              [(py "A", [(py "u", py "<A_0>")]);
               (py "X<A_0>", [(py "v", py "<X<A_0>_0>")])])
  /\ deanonymize_text (py "<A_0><X<A_0>_0>")
       [(py "A", [(py "u", py "<A_0>")]);
        (py "X<A_0>", [(py "v", py "<X<A_0>_0>")])]
     = py "u<Xu_0>".
Proof. split; vm_compute; reflexivity. Qed.

Example round_trip_needs_spans_apart :
  anonymize_text (py "abcdefgh")
    [mkDetection (py "A") 0 5; mkDetection (py "B") 3 8]
  = Returned (py "<A_0><B_0>",
              [(py "A", [(py "abcde", py "<A_0>")]);
               (py "B", [(py "defgh", py "<B_0>")])])
  /\ deanonymize_text (py "<A_0><B_0>")
       [(py "A", [(py "abcde", py "<A_0>")]);
        (py "B", [(py "defgh", py "<B_0>")])]
     = py "abcdedefgh".
Proof. split; vm_compute; reflexivity. Qed.

(** A detection that is not a span of the text is refused. *)
Example span_outside_text_refused :
  anonymize_text (py "abc") [mkDetection (py "PERSON") 2 10]
  = Raised InvalidParamError.
Proof. reflexivity. Qed.

(** * Further properties of the code *)

(** ** Lemmas *)

Lemma combine_fst_snd {A B : Type} (l : list (A * B)) :
  combine (map fst l) (map snd l) = l.
Proof.
  induction l as [|[a b] l IH]; simpl; [reflexivity | now rewrite IH].
Qed.

Lemma replace_all_absent (m : list (str * str)) (text : str) :
  (forall k, In k (Dict.keys m) -> Str.occurs k text = false) ->
  replace_all m text = text.
Proof.
  induction m as [|[k v] m IH]; intros H; [reflexivity|].
  unfold replace_all. cbn [fold_left].
  rewrite replace_absent by (apply H; now left).
  apply IH. intros k' Hk'. apply H. now right.
Qed.

Lemma find_app {A : Type} (f : A -> bool) (a b : list A) :
  find f (a ++ b)
  = match find f a with Some x => Some x | None => find f b end.
Proof.
  induction a as [|x a IH]; simpl; [reflexivity|].
  now destruct (f x).
Qed.

Lemma reverse_map_of_entries (store : EntityMapping) (acc : list (str * str)) :
  fold_left
    (fun reverse_map '(_, original_map) =>
       fold_left
         (fun reverse_map '(original_value, placeholder) =>
            Dict.set reverse_map placeholder original_value)
         original_map reverse_map)
    store acc
  = fold_left (fun rm '(v, p) => Dict.set rm p v) (entries store) acc.
Proof.
  revert acc. induction store as [|[t m] store IH]; intros acc.
  - reflexivity.
  - unfold entries. cbn [fold_left flat_map snd].
    rewrite fold_left_app. apply IH.
Qed.

Lemma get_fold_set (l acc : list (str * str)) (p : str) :
  Dict.get (fold_left (fun rm '(v, q) => Dict.set rm q v) l acc) p
  = match find (fun e => Str.eqb (snd e) p) (List.rev l) with
    | Some e => Some (fst e)
    | None => Dict.get acc p
    end.
Proof.
  revert acc. induction l as [|[v q] l IH]; intros acc.
  - reflexivity.
  - cbn [fold_left List.rev]. rewrite IH, find_app.
    destruct (find _ (List.rev l)) as [e|]; [reflexivity|].
    cbn [find snd fst]. destruct (Str.eqb q p) eqn:E.
    + apply str_eqb_eq in E. subst q. apply get_set_same.
    + apply str_eqb_neq in E. now apply get_set_other.
Qed.

Lemma set_keys_nodup {V : Type} (d : list (str * V)) (k : str) (v : V) :
  NoDup (Dict.keys d) -> NoDup (Dict.keys (Dict.set d k v)).
Proof.
  induction d as [|[k0 v0] d IH]; intros ND; simpl.
  - repeat constructor. now intros [].
  - inversion ND; subst. destruct (Str.eqb k0 k) eqn:E; simpl.
    + now constructor.
    + constructor; [|now apply IH].
      intros Hin. apply keys_set in Hin as [->|Hin]; [|contradiction].
      now rewrite str_eqb_refl in E.
Qed.

Lemma fold_set_nodup (l acc : list (str * str)) :
  NoDup (Dict.keys acc) ->
  NoDup (Dict.keys (fold_left (fun rm '(v, p) => Dict.set rm p v) l acc)).
Proof.
  revert acc. induction l as [|[v p] l IH]; intros acc ND; [exact ND|].
  cbn [fold_left]. apply IH. now apply set_keys_nodup.
Qed.


Lemma subst_all_twice (m : list (str * str)) (s : segment) :
  subst_all m (subst_all m s) = subst_all m s.
Proof.
  destruct s as [l|b]; [reflexivity|]. cbn [subst_all].
  destruct (Dict.get m (token b)) as [v|] eqn:G; [reflexivity|].
  cbn [subst_all]. now rewrite G.
Qed.

Lemma rstrip_snoc (c : ascii) (s : str) :
  Str.rstrip c (s ++ [c]) = Str.rstrip c s.
Proof.
  induction s as [|x s IH].
  - cbn [List.app Str.rstrip]. now rewrite Ascii.eqb_refl.
  - rewrite <- app_comm_cons. cbn [Str.rstrip]. now rewrite IH.
Qed.

Lemma rstrip_repeat (c : ascii) (s : str) (n : nat) :
  Str.rstrip c (s ++ repeat c n) = Str.rstrip c s.
Proof.
  induction n as [|n IH].
  - now rewrite app_nil_r.
  - cbn [repeat]. rewrite repeat_cons, app_assoc, rstrip_snoc. exact IH.
Qed.

Lemma rstrip_decompose (c : ascii) (s : str) :
  exists n, s = Str.rstrip c s ++ repeat c n.
Proof.
  induction s as [|x s [n IH]].
  - now exists 0.
  - cbn [Str.rstrip]. destruct (Str.rstrip c s) as [|y r] eqn:R.
    + destruct (Ascii.eqb x c) eqn:E.
      * apply Ascii.eqb_eq in E. subst x. exists (S n). simpl in *.
        now rewrite <- IH.
      * exists n. simpl in *. now rewrite <- IH.
    + exists n. simpl in *. now rewrite <- IH.
Qed.

Lemma rstrip_no_trailing (c : ascii) (s r : str) :
  Str.rstrip c s <> r ++ [c].
Proof.
  revert r. induction s as [|x s IH]; intros r.
  - cbn [Str.rstrip]. apply app_cons_not_nil.
  - cbn [Str.rstrip]. destruct (Str.rstrip c s) as [|y r'] eqn:R.
    + destruct (Ascii.eqb x c) eqn:E.
      * apply app_cons_not_nil.
      * intros H. destruct r as [|a [|b r]]; simpl in H.
        -- inversion H; subst. now rewrite Ascii.eqb_refl in E.
        -- discriminate.
        -- discriminate.
    + intros H. destruct r as [|a r]; simpl in H.
      * discriminate.
      * inversion H; subst. now apply (IH r).
Qed.

(** ** The operator *)

(** X1.  For every store, a call of the operator for [(t, v)] returns a
    placeholder that the store then holds under [t] and [v]; and after any
    further calls, for whatever types and values, a call for [(t, v)]
    returns that same placeholder and changes nothing. *)
Theorem allocated_entry_persists (store : EntityMapping) (t v : str)
        (calls : list (str * str)) :
  exists p,
    fst (allocate store t v) = Returned p
    /\ Dict.get (inner_of (snd (allocate store t v)) t) v = Some p
    /\ allocate (alloc_all calls (snd (allocate store t v))) t v
       = (Returned p, alloc_all calls (snd (allocate store t v))).
Proof.
  destruct (allocate_returns store t v) as (p & Hp & Hg).
  exists p. split; [exact Hp|]. split; [exact Hg|].
  pose proof (alloc_all_keeps calls _ _ _ _ Hg) as Hk.
  destruct (allocate_effect (alloc_all calls (snd (allocate store t v))) t v)
    as [_ H].
  now rewrite Hk in H.
Qed.

(** X2.  What the operator and [validate] do for each shape of [params]:
    without ["entity_mapping"] (or without [params]) both raise their
    [ValueError]; with ["entity_mapping"] but without ["entity_type"]
    [validate] raises a [ValueError] and [operate] a [KeyError] and the
    store stays as it is; with both, [validate] returns and [operate]
    returns a placeholder. *)
Theorem missing_parameter_errors (text : str) (params : option Params)
        (store : EntityMapping) :
  if lacks_entity_mapping params then
    operate text params store
    = (Raised (ValueError "Expected 'entity_mapping' in params."), store)
    /\ validate params
       = Raised (ValueError "An input dict 'entity_mapping' is required.")
  else if lacks_entity_type params then
    operate text params store = (Raised (KeyError "entity_type"), store)
    /\ validate params = Raised (ValueError "'entity_type' param is required.")
  else
    validate params = Returned tt
    /\ exists p, fst (operate text params store) = Returned p.
Proof.
  destruct params as [[[|] [t|]]|]; cbn; try (split; reflexivity).
  split; [reflexivity|].
  change (operate text (Some (mkParams true (Some t))) store)
    with (allocate store t text).
  destruct (allocate_returns store t text) as (p & Hp & _). now exists p.
Qed.

(** X3.  The shape of the store is an invariant of the operator: if the
    entity types of a store are distinct and, for every type [t], its
    values are distinct and their placeholders are [<t_0>], [<t_1>], ...
    in insertion order, the same holds after any call, raising or not. *)
Theorem operate_keeps_canonical (text : str) (params : option Params)
        (store : EntityMapping) :
  canonical store -> canonical (snd (operate text params store)).
Proof.
  intros C. destruct params as [[[|] [t|]]|]; try exact C.
  change (operate text (Some (mkParams true (Some t))) store)
    with (allocate store t text).
  now apply canonical_allocate.
Qed.

Lemma operate_keeps_canonical_witness :
  let store := [(py "PERSON", [(py "Peter", py "<PERSON_0>")])] in
  canonical store
  /\ canonical
       (snd (operate (py "Heidi") (Some (mkParams true (Some (py "PERSON"))))
                     store)).
Proof.
  intros store.
  assert (C : canonical store).
  { split.
    - repeat constructor. intros [].
    - repeat constructor. intros []. }
  split; [exact C|].
  exact (operate_keeps_canonical (py "Heidi")
           (Some (mkParams true (Some (py "PERSON")))) store C).
Defined.

(** X4.  The placeholder format is injective: two placeholders are the
    same string only if they were formatted from the same entity type and
    the same index, whatever characters the entity types hold. *)
Theorem placeholder_format_injective (t t' : str) (i j : nat) :
  REPLACING_FORMAT t i = REPLACING_FORMAT t' j -> t = t' /\ i = j.
Proof.
  unfold REPLACING_FORMAT. intros E. inversion E as [E'].
  assert (N : forall n, ~ In "_" (Str.of_nat n ++ [">"])).
  { intros n. rewrite in_app_iff. intros [H|[H|[]]]; [|discriminate].
    now apply of_nat_no_underscore in H. }
  apply split_at_last in E'; [|apply N|apply N].
  destruct E' as [-> E2]. split; [reflexivity|].
  apply app_inv_tail in E2. now apply of_nat_inj.
Qed.

Lemma placeholder_format_injective_witness :
  REPLACING_FORMAT (py "A_1") 0 = py "<A_1_0>"
  /\ (py "A_1" = py "A_1" /\ 0 = 0).
Proof.
  split; [reflexivity|].
  exact (placeholder_format_injective (py "A_1") (py "A_1") 0 0 eq_refl).
Defined.

(** X5.  The whole content of the store after any sequence of calls from
    the empty store: the inner mapping of a type [t] lists the distinct
    values of [t] in the order of their first appearance, the value at
    position [n] with the placeholder [<t_n>]. *)
Theorem store_content (calls : list (str * str)) (t : str) :
  inner_of (store_after calls) t
  = combine (first_seen t calls)
            (map (REPLACING_FORMAT t) (seq 0 (length (first_seen t calls)))).
Proof.
  pose proof (canonical_inner_of _ t (canonical_store_after calls)) as [_ Hv].
  rewrite <- (keys_first_seen calls t). unfold Dict.keys.
  rewrite length_map, <- Hv. unfold Dict.values. symmetry.
  apply combine_fst_snd.
Qed.

(** ** The reverse pass *)

(** X6.  For every mapping, a text in which no placeholder of the mapping
    occurs comes out of the reverse pass as it went in. *)
Theorem no_placeholder_no_change (text : str) (store : EntityMapping) :
  forallb (fun p => negb (Str.occurs p text)) (placeholders store) = true ->
  deanonymize_text text store = text.
Proof.
  intros H. unfold deanonymize_text. apply replace_all_absent.
  intros k Hk. apply reverse_map_keys in Hk.
  rewrite forallb_forall in H. specialize (H _ Hk).
  now apply negb_true_iff in H.
Qed.

Lemma no_placeholder_no_change_witness :
  let store := [(py "PERSON", [(py "Peter", py "<PERSON_0>")])] in
  let text := py "<PERSON_1> wrote to <LOCATION_0>." in
  forallb (fun p => negb (Str.occurs p text)) (placeholders store) = true
  /\ deanonymize_text text store = text.
Proof.
  intros store text. split; [reflexivity|].
  apply (no_placeholder_no_change text store). reflexivity.
Defined.

(** X7.  The reverse map of any mapping, also one in which several entries
    hold the same placeholder: its keys are pairwise distinct, and a
    placeholder is mapped to the original value of the last entry, in
    iteration order, that holds it (to nothing when no entry holds it). *)
Theorem reverse_map_last_wins (store : EntityMapping) (p : str) :
  Dict.get (reverse_map_of store) p = last_original store p
  /\ NoDup (Dict.keys (reverse_map_of store)).
Proof.
  unfold reverse_map_of. rewrite reverse_map_of_entries. split.
  - rewrite get_fold_set. unfold last_original.
    now destruct (find _ (List.rev (entries store))).
  - apply fold_set_nodup. constructor.
Qed.

Example reverse_map_of_shared_placeholder :
  reverse_map_of
    [(py "PERSON", [(py "Peter", py "<P>"); (py "Heidi", py "<Q>")]);
     (py "LOCATION", [(py "London", py "<P>")])]
  = [(py "<P>", py "London"); (py "<Q>", py "Heidi")].
Proof. reflexivity. Qed.

(** X8.  What the reverse pass computes on a well-bracketed text.  Let
    every key of the reverse map be a token and no original value hold
    ["<"] (so it is for every store the allocator builds from such types
    and values).  On a text made of runs without ["<"] and of tokens, the
    pass turns every token that is a key into its original value, all at
    once, and leaves every other token and every run as it is. *)
Theorem reverse_pass_simultaneous (store : EntityMapping)
        (segs : list segment) :
  Forall item_ok (reverse_map_of store) ->
  forallb seg_ok segs = true ->
  deanonymize_text (render_segments segs) store
  = render_segments (map (subst_all (reverse_map_of store)) segs).
Proof.
  intros Hm Hs. unfold deanonymize_text.
  now apply replace_all_segments.
Qed.

Lemma reverse_pass_simultaneous_witness :
  let store := [(py "PERSON", [(py "Peter", py "<PERSON_0>")])] in
  let segs := [Tok (py "PERSON_0"); Lit (py " met "); Tok (py "PERSON_5")] in
  Forall item_ok (reverse_map_of store)
  /\ forallb seg_ok segs = true
  /\ render_segments segs = py "<PERSON_0> met <PERSON_5>"
  /\ deanonymize_text (py "<PERSON_0> met <PERSON_5>") store
     = py "Peter met <PERSON_5>".
Proof.
  intros store segs.
  assert (H : Forall item_ok (reverse_map_of store)).
  { constructor; [|constructor]. split; [|reflexivity].
    exists (py "PERSON_0"). split; reflexivity. }
  split; [exact H|]. split; [reflexivity|]. split; [reflexivity|].
  change (py "<PERSON_0> met <PERSON_5>") with (render_segments segs).
  rewrite (reverse_pass_simultaneous store segs H eq_refl). reflexivity.
Defined.

(** X9.  Under the hypotheses of X8 on the mapping, the reverse pass is
    idempotent on a text in which every ["<"] opens a token: running it
    on its own output changes nothing. *)
Theorem deanonymize_twice (store : EntityMapping) (text : str) :
  Forall item_ok (reverse_map_of store) ->
  bracketed text = true ->
  deanonymize_text (deanonymize_text text store) store
  = deanonymize_text text store.
Proof.
  intros Hm Ht. destruct (bracketed_segments _ Ht) as (segs & Hs & ->).
  unfold deanonymize_text.
  rewrite (replace_all_segments _ segs Hm Hs).
  rewrite replace_all_segments.
  - rewrite map_map. f_equal. apply map_ext. intros s.
    apply subst_all_twice.
  - exact Hm.
  - rewrite forallb_forall in *. intros s Hin.
    apply in_map_iff in Hin as (s0 & <- & Hin).
    apply subst_all_ok; auto.
Qed.

Lemma deanonymize_twice_witness :
  let store := [(py "PERSON", [(py "Peter", py "<PERSON_0>")])] in
  let text := py "<PERSON_0> met <PERSON_5>" in
  Forall item_ok (reverse_map_of store)
  /\ bracketed text = true
  /\ deanonymize_text (deanonymize_text text store) store
     = py "Peter met <PERSON_5>".
Proof.
  intros store text.
  assert (H : Forall item_ok (reverse_map_of store)).
  { constructor; [|constructor]. split; [|reflexivity].
    exists (py "PERSON_0"). split; reflexivity. }
  split; [exact H|]. split; [reflexivity|].
  rewrite (deanonymize_twice store text H eq_refl). reflexivity.
Defined.

(** X10.  Under the hypotheses of X8 on the mapping, the reverse pass
    works piece by piece: on the concatenation of two texts in each of
    which every ["<"] opens a token, its output is the concatenation of
    its outputs on the two texts. *)
Theorem deanonymize_app (store : EntityMapping) (a b : str) :
  Forall item_ok (reverse_map_of store) ->
  bracketed a = true -> bracketed b = true ->
  deanonymize_text (a ++ b) store
  = deanonymize_text a store ++ deanonymize_text b store.
Proof.
  intros Hm Ha Hb.
  destruct (bracketed_segments _ Ha) as (sa & Hsa & ->).
  destruct (bracketed_segments _ Hb) as (sb & Hsb & ->).
  unfold deanonymize_text, render_segments.
  rewrite <- flat_map_app.
  fold (render_segments (sa ++ sb)) (render_segments sa) (render_segments sb).
  rewrite !replace_all_segments; try assumption.
  - unfold render_segments. now rewrite map_app, flat_map_app.
  - rewrite forallb_app. now rewrite Hsa, Hsb.
Qed.

Lemma deanonymize_app_witness :
  let store := [(py "PERSON", [(py "Peter", py "<PERSON_0>")])] in
  Forall item_ok (reverse_map_of store)
  /\ bracketed (py "<PERSON_0> met ") = true
  /\ bracketed (py "<PERSON_5>") = true
  /\ deanonymize_text (py "<PERSON_0> met " ++ py "<PERSON_5>") store
     = py "Peter met <PERSON_5>".
Proof.
  intros store.
  assert (H : Forall item_ok (reverse_map_of store)).
  { constructor; [|constructor]. split; [|reflexivity].
    exists (py "PERSON_0"). split; reflexivity. }
  split; [exact H|]. split; [reflexivity|]. split; [reflexivity|].
  rewrite (deanonymize_app store (py "<PERSON_0> met ") (py "<PERSON_5>")
             H eq_refl eq_refl).
  reflexivity.
Defined.

(** ** The command line *)

(** X11.  What [main] keeps of its input: the text it passes on is the
    input without the line feeds at its end.  The input is that text
    followed by line feeds only, and that text does not end in a line
    feed; everything before the trailing line feeds is kept. *)
Theorem input_without_trailing_newlines (stdin : str) :
  (exists n, stdin = Str.rstrip newline stdin ++ repeat newline n)
  /\ (forall r, Str.rstrip newline stdin <> r ++ [newline])
  /\ Str.rstrip newline (Str.rstrip newline stdin) = Str.rstrip newline stdin.
Proof.
  split; [apply rstrip_decompose|]. split; [apply rstrip_no_trailing|].
  destruct (rstrip_decompose newline (Str.rstrip newline stdin)) as [n E].
  destruct n as [|n].
  - simpl in E. now rewrite app_nil_r in E.
  - exfalso. cbn [repeat] in E. rewrite repeat_cons, app_assoc in E.
    exact (rstrip_no_trailing newline stdin _ E).
Qed.

(** X12.  Line feeds at the end of the input do not matter to [main]: in
    either mode, whatever the analyzer and the mapping file, a run prints
    the same and leaves the same mapping file whether or not line feeds
    are appended to its input. *)
Theorem main_ignores_trailing_newlines (analyze : str -> list Detection)
        (mode : Mode) (stdin : str) (mapping_file : option EntityMapping)
        (n : nat) :
  main analyze mode (stdin ++ repeat newline n) mapping_file
  = main analyze mode stdin mapping_file.
Proof. unfold main. now rewrite rstrip_repeat. Qed.
